(** * MailScout: a shallow embedding of [mailscout/scout.py]

    The development follows the layout of the [Scout] class:
    - Python strings and the few built-ins the class relies on;
    - the standard output, as far as a [print] can raise;
    - the SMTP probe [check_smtp] and the catch-all detector;
    - [normalize_name], [generate_prefixes], [generate_email_variants];
    - the sentinel-terminated worker pool shared by [find_valid_emails]
      and [find_valid_emails_bulk], as an interleaving semantics;
    - the two entry points built on that pool.

    Python values are modelled as the code has them: a [str] is a sequence
    of Unicode code points, a [set] is a [gset], an exception is an explicit
    outcome. *)

From Stdlib Require Import ZArith NArith String Ascii.
From stdpp Require Import base tactics option list numbers countable gmap sets.

Local Open Scope Z_scope.

(** ** Python strings *)

Module Py.

(** A code point; a Python [str] is a sequence of them. *)
Definition codepoint := N.
Definition str := list codepoint.

(** ASCII literals, for readable examples. *)
Definition lit (s : string) : str :=
  (λ a, N_of_ascii a) <$> list_ascii_of_string s.

Definition AT : codepoint := 64%N.      (* '@' *)
Definition DOT : codepoint := 46%N.     (* '.' *)
Definition SPACE : codepoint := 32%N.   (* ' ' *)

(** [s.split(sep)] for a one-character separator: every occurrence
    splits, and the result is never empty. *)
Fixpoint split (sep : codepoint) (s : str) : list str :=
  match s with
  | [] => [[]]
  | c :: s' =>
      if decide (c = sep) then [] :: split sep s'
      else match split sep s' with
           | w :: ws => (c :: w) :: ws
           | [] => [[c]]
           end
  end.

(** [sep.join(parts)]. *)
Fixpoint join (sep : str) (parts : list str) : str :=
  match parts with
  | [] => []
  | [p] => p
  | p :: ps => p ++ sep ++ join sep ps
  end.

(** The f-string [f"{local}@{domain}"]. *)
Definition address (domain local : str) : str := local ++ AT :: domain.

End Py.
Import Py.

(** ** Outcomes of a call *)

(** The exceptions that matter to the class: the [IndexError] of an
    out-of-range subscript, whatever the DNS and SMTP libraries raise, and
    the [UnicodeEncodeError] of a [print] whose text the standard output
    cannot encode. *)
Inductive exn := IndexError | LibraryError | UnicodeEncodeError.

(** A call returns, raises, or never comes back (a thread blocked for
    ever in [Queue.join]). *)
Inductive outcome (A : Type) :=
| Returns (a : A)
| Raises (e : exn)
| Blocks.
Arguments Returns {A} a.
Arguments Raises {A} e.
Arguments Blocks {A}.

#[global] Instance exn_eq_dec : EqDecision exn.
Proof. solve_decision. Defined.
#[global] Instance outcome_eq_dec {A} `{EqDecision A} : EqDecision (outcome A).
Proof. solve_decision. Defined.

#[global] Instance outcome_ret : MRet outcome := λ A a, Returns a.
#[global] Instance outcome_bind : MBind outcome := λ A B k m,
  match m with
  | Returns a => k a
  | Raises e => Raises e
  | Blocks => Blocks
  end.

(** [try: m except Exception: h]. *)
Definition try_except {A} (m : outcome A) (h : exn → outcome A) : outcome A :=
  match m with
  | Raises e => h e
  | other => other
  end.

(** A call into a library: [None] when it raises. *)
Definition lib {A} (r : option A) : outcome A :=
  match r with
  | Some a => Returns a
  | None => Raises LibraryError
  end.

(** [l[i]]. *)
Definition subscript {A} (l : list A) (i : nat) : outcome A :=
  match l !! i with
  | Some a => Returns a
  | None => Raises IndexError
  end.

(** ** Standard output

    [print(text)] encodes [text] for [sys.stdout], whose error handler is
    [strict]: one character the encoding of the stream does not have and
    the call raises [UnicodeEncodeError], having written nothing the
    class reads back.  Every encoding Python gives a stream has the ASCII
    characters. *)

Definition is_ascii (c : codepoint) : bool := (c <? 128)%N.

(** The stream, by the characters beyond ASCII its encoding has. *)
Record console := {
  encodable : codepoint → bool;
}.

Definition can_print (out : console) (text : str) : bool :=
  forallb (λ c, is_ascii c || encodable out c) text.

Definition print (out : console) (text : str) : outcome unit :=
  if can_print out text then Returns () else Raises UnicodeEncodeError.

(** A terminal in UTF-8: it has every character but the surrogates
    U+D800 to U+DFFF. *)
Definition utf8_console : console :=
  {| encodable c := (c <? 0xD800)%N || (0xDFFF <? c)%N |}.

(** ** The network, as [check_smtp] sees it *)

(** One SMTP connection: the reply code of each command the probe sends,
    or [None] when [smtplib] raises instead of returning a reply.
    [smtp_exit] is the teardown done by the [with] statement. *)
Record smtp_server := {
  smtp_ehlo : str → option Z;
  smtp_mail : str → option Z;
  smtp_rcpt : str → option Z;
  smtp_exit : option unit;
}.

(** What lies outside the interpreter: the DNS, the SMTP servers, and the
    terminal the process writes to. *)
Record network := {
  (** [dns.resolver.resolve(domain, 'MX')]: the exchangers of the answer. *)
  resolve_mx : str → option (list str);
  (** [smtplib.SMTP(host, port, timeout=...)]. *)
  smtp_connect : str → Z → Z → option smtp_server;
  (** [str(e)] for the exception the libraries raise while the given
      address is probed. *)
  library_error_text : str → str;
  (** [sys.stdout]. *)
  stdout : console;
}.

(** [with server: body]: the teardown runs on every exit path, and an
    exception of the teardown replaces a normal result. *)
Definition with_server {A} (server : smtp_server) (body : outcome A) : outcome A :=
  match body with
  | Returns a => lib (smtp_exit server);; Returns a
  | Raises e => match smtp_exit server with
                | Some _ => Raises e
                | None => Raises LibraryError
                end
  | Blocks => Blocks
  end.

(** The construction-time options of [Scout]. *)
Record Scout := {
  check_variants : bool;
  check_prefixes : bool;
  check_catchall : bool;
  normalize : bool;
  num_threads : Z;
  num_bulk_threads : Z;
  smtp_timeout : Z;
}.

Definition default_scout : Scout :=
  {| check_variants := true; check_prefixes := true; check_catchall := true;
     normalize := true; num_threads := 5; num_bulk_threads := 1;
     smtp_timeout := 2 |}.

(** The same options with another probe-pool size. *)
Definition with_threads (self : Scout) (n : Z) : Scout :=
  {| check_variants := check_variants self; check_prefixes := check_prefixes self;
     check_catchall := check_catchall self; normalize := normalize self;
     num_threads := n; num_bulk_threads := num_bulk_threads self;
     smtp_timeout := smtp_timeout self |}.

(** The same options with the catch-all check switched off. *)
Definition without_catchall (self : Scout) : Scout :=
  {| check_variants := check_variants self; check_prefixes := check_prefixes self;
     check_catchall := false; normalize := normalize self;
     num_threads := num_threads self; num_bulk_threads := num_bulk_threads self;
     smtp_timeout := smtp_timeout self |}.

Section Probe.
Context (self : Scout) (net : network).

(** The guarded part of [check_smtp], lines 58-66. *)
Definition smtp_dialogue (email domain : str) (port : Z) : outcome bool :=
  records ← lib (resolve_mx net domain);
  mx_record ← subscript records 0;
  server ← lib (smtp_connect net mx_record port (smtp_timeout self));
  code ← with_server server
           (lib (smtp_ehlo server (lit "example.com"));;
            lib (smtp_mail server (lit "test@example.com"));;
            lib (smtp_rcpt server email));
  Returns (bool_decide (code = 250)).

(** [str(e)] for an exception raised while [subject] was worked on.  The
    texts of the interpreter's own exceptions are ASCII: an [IndexError]
    says which kind of sequence was indexed (here a list, for [name[0]] a
    string), a [UnicodeEncodeError] names the codec, the position and the
    character, the latter as an escape. *)
Definition exn_text (subject : str) (e : exn) : str :=
  match e with
  | IndexError => lit "list index out of range"
  | LibraryError => library_error_text net subject
  | UnicodeEncodeError => lit "codec can't encode character: surrogates not allowed"
  end.

(** The text of the [print] of line 68. *)
Definition error_checking (email : str) (e : exn) : str :=
  lit "Error checking " ++ email ++ lit ": " ++ exn_text email e.

(** The text of the [print] of lines 223 and 309. *)
Definition error_processing (domain subject : str) (e : exn) : str :=
  lit "Error processing " ++ domain ++ lit ": " ++ exn_text subject e.

Definition check_smtp_on (email : str) (port : Z) : outcome bool :=
  domain ← subscript (split AT email) 1;
  try_except (smtp_dialogue email domain port)
    (λ e, print (stdout net) (error_checking email e);; Returns false).

(** [check_smtp(email)] with the default port. *)
Definition check_smtp (email : str) : outcome bool := check_smtp_on email 25.

(** [check_email_catchall].  [draws k] is the index picked by the [k]-th
    of the ten draws of
    [random.choices(string.ascii_lowercase + string.digits, k=10)]. *)
Definition alphabet : str := lit "abcdefghijklmnopqrstuvwxyz0123456789".

Definition random_choices (draws : nat → nat) : str :=
  (λ k, default 0%N (alphabet !! (draws k mod 36)%nat)) <$> seq 0 10.

Definition random_email (draws : nat → nat) (domain : str) : str :=
  address domain (random_choices draws ++ lit "falan").

Definition check_email_catchall (draws : nat → nat) (domain : str) : outcome bool :=
  check_smtp (random_email draws domain).

End Probe.

(** ** Name normalisation *)

Definition is_upper (c : codepoint) : bool := (65 <=? c)%N && (c <=? 90)%N.
Definition is_lower (c : codepoint) : bool := (97 <=? c)%N && (c <=? 122)%N.
Definition is_digit (c : codepoint) : bool := (48 <=? c)%N && (c <=? 57)%N.

(** The class [[a-zA-Z0-9]] of the regular expression on line 116. *)
Definition is_alnum (c : codepoint) : bool := is_lower c || is_upper c || is_digit c.

Definition ascii_upper (c : codepoint) : codepoint := if is_lower c then (c - 32)%N else c.
Definition ascii_lower (c : codepoint) : codepoint := if is_upper c then (c + 32)%N else c.

(** The Unicode machinery [normalize_name] calls: [str.upper], [str.lower],
    the transliteration table of the [unidecode] package and
    [unicodedata.normalize('NFKD', _)].  None of it belongs to the
    repository, so it is an interface here. *)
Class UnicodeData := {
  str_upper : str → str;
  str_lower : str → str;
  unidecode_table : codepoint → str;
  nfkd : str → str;
}.

(** What Python guarantees of that machinery on ASCII text: case mapping is
    the ASCII one, NFKD leaves ASCII alone. *)
Class UnicodeAscii (U : UnicodeData) := {
  str_upper_ascii s : forallb is_ascii s = true → str_upper s = ascii_upper <$> s;
  str_lower_ascii s : forallb is_ascii s = true → str_lower s = ascii_lower <$> s;
  unidecode_table_ascii c : forallb is_ascii (unidecode_table c) = true;
  nfkd_ascii s : forallb is_ascii s = true → nfkd s = s;
}.

Section Normalizer.
Context {U : UnicodeData}.

(** [unidecode(s)]: ASCII characters are kept, every other character is
    replaced by its table entry (the empty string when it has none). *)
Definition unidecode (s : str) : str :=
  c ← s; if is_ascii c then [c] else unidecode_table c.

(** [s.encode('ascii', 'ignore').decode('ascii')]. *)
Definition ascii_ignore (s : str) : str := filter (λ c, is_ascii c = true) s.

(** [re.sub(r'[^a-zA-Z0-9]', '', s)]. *)
Definition strip_non_alnum (s : str) : str := filter (λ c, is_alnum c = true) s.

Definition normalize_name (name : str) : str :=
  let name := str_lower (str_upper name) in
  let name := unidecode name in
  let normalized := nfkd name in
  let ascii_encoded := ascii_ignore normalized in
  let email_compliant := strip_non_alnum ascii_encoded in
  email_compliant.

End Normalizer.

(** An excerpt of the Unicode data, enough to replay the repository's own
    tests of [normalize_name]: ASCII, the Latin letters those tests use, and
    the two ideographs of the [unidecode] package's documentation
    ([unidecode("\u5317\u4EB0")] is ['Bei Jing ']). *)
Module Excerpt.

(** Pairs (lower case, upper case) of the letters in the tests. *)
Definition case_pairs : list (codepoint * codepoint) :=
  [ (0xE7, 0xC7); (0xF6, 0xD6); (0xFC, 0xDC); (0x105, 0x104);
    (0x107, 0x106); (0x142, 0x141); (0x144, 0x143); (0x15B, 0x15A);
    (0x15F, 0x15E) ]%N.

Definition upper1 (c : codepoint) : codepoint :=
  if is_ascii c then ascii_upper c
  else if decide (c = 0x131%N) then 0x49%N     (* dotless i upper-cases to I *)
  else match list_find (λ p, p.1 = c) case_pairs with
       | Some (_, (_, u)) => u
       | None => c
       end.

Definition lower1 (c : codepoint) : codepoint :=
  if is_ascii c then ascii_lower c
  else match list_find (λ p, p.2 = c) case_pairs with
       | Some (_, (l, _)) => l
       | None => c
       end.

(** Rows of the [unidecode] tables. *)
Definition table (c : codepoint) : str :=
  match c with
  | 0xC7 => lit "C" | 0xE7 => lit "c" | 0xD6 => lit "O" | 0xF6 => lit "o"
  | 0xDC => lit "U" | 0xFC => lit "u" | 0x104 => lit "A" | 0x105 => lit "a"
  | 0x106 => lit "C" | 0x107 => lit "c" | 0x131 => lit "i"
  | 0x141 => lit "L" | 0x142 => lit "l" | 0x143 => lit "N" | 0x144 => lit "n"
  | 0x15A => lit "S" | 0x15B => lit "s" | 0x15E => lit "S" | 0x15F => lit "s"
  | 0x5317 => lit "Bei " | 0x4EB0 => lit "Jing "
  | _ => []
  end%N.

(** Compatibility decompositions of the same letters. *)
Definition decompose (c : codepoint) : str :=
  match c with
  | 0xC7 => [0x43; 0x327] | 0xE7 => [0x63; 0x327]
  | 0xD6 => [0x4F; 0x308] | 0xF6 => [0x6F; 0x308]
  | 0xDC => [0x55; 0x308] | 0xFC => [0x75; 0x308]
  | 0x104 => [0x41; 0x328] | 0x105 => [0x61; 0x328]
  | 0x106 => [0x43; 0x301] | 0x107 => [0x63; 0x301]
  | 0x143 => [0x4E; 0x301] | 0x144 => [0x6E; 0x301]
  | 0x15A => [0x53; 0x301] | 0x15B => [0x73; 0x301]
  | 0x15E => [0x53; 0x327] | 0x15F => [0x73; 0x327]
  | _ => [c]
  end%N.

#[global] Instance unicode : UnicodeData := {|
  str_upper s := upper1 <$> s;
  str_lower s := lower1 <$> s;
  unidecode_table := table;
  nfkd s := s ≫= decompose;
|}.

End Excerpt.

(** ** Candidate generation *)

Definition common_prefixes : list str := lit <$>
  [ (* Business Prefixes *)
    "info"; "contact"; "sales"; "support"; "admin";
    "service"; "team"; "hello"; "marketing"; "hr";
    "office"; "accounts"; "billing"; "careers"; "jobs";
    "press"; "help"; "enquiries"; "management"; "staff";
    "webmaster"; "administrator"; "customer"; "tech";
    "finance"; "legal"; "compliance"; "operations"; "it";
    "network"; "development"; "research"; "design"; "engineering";
    "production"; "purchasing"; "logistics"; "training";
    "ceo"; "director"; "manager";
    "executive"; "agent"; "representative"; "partner";
    (* Website Management Prefixes *)
    "blog"; "forum"; "news"; "updates"; "events";
    "community"; "shop"; "store"; "feedback";
    "media"; "resource"; "resources";
    "api"; "dev"; "developer"; "status"; "security" ]%string.

Definition generate_prefixes (domain : str) (custom_prefixes : option (list str)) : list str :=
  let prefixes := default common_prefixes custom_prefixes in
  address domain <$> prefixes.

(** [itertools.permutations(l, r)]: the [r]-length arrangements of the
    elements of [l], by position, in lexicographic order of positions. *)
Fixpoint selects {A} (l : list A) : list (A * list A) :=
  match l with
  | [] => []
  | x :: xs => (x, xs) :: ((λ p, (p.1, x :: p.2)) <$> selects xs)
  end.

Fixpoint permutations {A} (l : list A) (r : nat) : list (list A) :=
  match r with
  | O => [[]]
  | S r' => p ← selects l; (p.1 ::.) <$> permutations p.2 r'
  end.

(** [variants.add(x)]. *)
Definition set_add (x : str) (variants : gset str) : gset str := {[x]} ∪ variants.

Section Variants.
Context {U : UnicodeData}.

(** Body of the inner loop, lines 182-183. *)
Definition add_combination (variants : gset str) (name_combination : list str) : gset str :=
  set_add (join [DOT] name_combination) (set_add (join [] name_combination) variants).

(** Lines 179-183. *)
Definition add_combinations (names : list str) (variants : gset str) : gset str :=
  foldl (λ vs r, foldl add_combination vs (permutations names r))
        variants (seq 1 (length names)).

(** Lines 186-188; [name[0]] raises on an empty [name]. *)
Fixpoint add_individual (names : list str) (variants : gset str) : outcome (gset str) :=
  match names with
  | [] => Returns variants
  | name :: rest =>
      let variants := set_add name variants in
      initial ← subscript name 0;
      add_individual rest (set_add [initial] variants)
  end.

(** The iteration order of a Python [set] is not specified; [elements]
    is one such order. *)
Definition generate_email_variants (names : list str) (domain : str)
    (normalize : bool) : outcome (list str) :=
  let names := if normalize then normalize_name <$> names else names in
  variants ← add_individual names (add_combinations names ∅);
  Returns (address domain <$> elements variants).

End Variants.

(** [e] is [local@domain] for some local part. *)
Definition has_domain (domain e : str) : Prop := ∃ local, e = local ++ AT :: domain.

(** The strings the inner loop adds for a list of combinations. *)
Definition joined (combinations : list (list str)) : list str :=
  p ← combinations; [join [] p; join [DOT] p].

(** [n (n-1) ... (n-r+1)], the number of [r]-arrangements of [n] things. *)
Fixpoint falling (n r : nat) : nat :=
  match r with
  | O => 1%nat
  | S r' => (n * falling (n - 1) r')%nat
  end.

(** All arrangements of two or more tokens, each with both joiners, plus
    the tokens, plus their initials. *)
Definition variant_bound (n : nat) : nat :=
  (2 * sum_list (falling n <$> seq 2 (n - 1)) + n + n)%nat.

(** [split_list_data]. *)
Definition split_list_data (target : list str) : list str :=
  i ← target; split SPACE i.

(** The [names] argument of [find_valid_emails]:
    [Optional[Union[str, List[str], List[List[str]]]]].  The empty list is
    a [NamesList]; a list of lists has a first element. *)
Inductive names_arg :=
| NamesNone
| NamesStr (s : str)
| NamesList (l : list str)
| NamesNested (first : list str) (rest : list (list str)).

#[global] Instance names_arg_eq_dec : EqDecision names_arg.
Proof. solve_decision. Defined.

(** Truth value of [names]. *)
Definition truthy (names : names_arg) : bool :=
  match names with
  | NamesNone => false
  | NamesStr s => bool_decide (s ≠ [])
  | NamesList l => bool_decide (l ≠ [])
  | NamesNested _ _ => true
  end.

Section Candidates.
Context {U : UnicodeData} (self : Scout).

(** The loop of lines 236-239. *)
Fixpoint extend_variants (domain : str) (email_variants : list str)
    (names : list (list str)) : outcome (list str) :=
  match names with
  | [] => Returns email_variants
  | name_list :: rest =>
      let name_list := split_list_data name_list in
      vs ← generate_email_variants name_list domain (normalize self);
      extend_variants domain (email_variants ++ vs) rest
  end.

(** Lines 232-242: the variants, and [names] as rebound on the way. *)
Definition variant_stage (domain : str) (names : names_arg)
    : outcome (names_arg * list str) :=
  if check_variants self && truthy names then
    let names := match names with
                 | NamesStr s => NamesList (split SPACE s)
                 | other => other
                 end in
    match names with
    | NamesNested first rest =>
        vs ← extend_variants domain [] (first :: rest);
        Returns (names, vs)
    | NamesList l =>
        let l := split_list_data l in
        vs ← generate_email_variants l domain (normalize self);
        Returns (NamesList l, vs)
    | _ => Returns (names, [])
    end
  else Returns (names, []).

(** Lines 227-247: [all_emails]. *)
Definition all_emails (domain : str) (names : names_arg) : outcome (list str) :=
  '(names, email_variants) ← variant_stage domain names;
  let generated_mails :=
    if check_prefixes self && negb (truthy names)
    then generate_prefixes domain None else [] in
  Returns (email_variants ++ generated_mails).

End Candidates.

(** ** The worker pool

    [find_valid_emails] and [find_valid_emails_bulk] run the same pattern:
    start [n] threads on a [worker] closure, [put] every item on a [Queue],
    [join] the queue, [put] one [None] per thread, [join] the threads.
    The model is an interleaving semantics: a state of the main thread, of
    each worker, of the queue and of the result list; one thread moves at
    a time.  [Queue.put], [Queue.get], [Queue.task_done] and [list.append]
    are the atomic steps. *)

Module Pool.
Local Open Scope nat_scope.
Section Pool.
Context {A B : Type}.

(** What a worker does with an item between [q.get()] and the [finally],
    that is the [try] with its [except] clause: it returns, maybe with
    something to append to the shared list, or the [except] clause itself
    raises. *)
Context (body : A → outcome (option B)).

(** The statements the main thread still has to run. *)
Inductive instr :=
| Start                      (* t = Thread(target=worker); t.start() *)
| Put (x : option A)         (* q.put(x) *)
| Join                       (* q.join() *)
| JoinThread (i : nat).      (* threads[i].join() *)

(** Lines 253-270 (and 318-335) for [n] threads. *)
Definition program (n : nat) (items : list A) : list instr :=
  replicate n Start ++ (Put ∘ Some <$> items) ++ [Join]
    ++ replicate n (Put None) ++ (JoinThread <$> seq 0 n).

(** Where a worker is in its loop. *)
Inductive worker :=
| Waiting                    (* in q.get() *)
| Holding (item : A)         (* got an item, about to run the body *)
| Computed (r : option B)    (* body done, append pending *)
| Finishing                  (* about to call q.task_done() *)
| Dying                      (* the except clause raised: q.task_done(), then out *)
| Stopped.                   (* left the loop, or died *)

Record state := {
  pc : list instr;
  workers : list worker;
  queue : list (option A);
  unfinished : nat;          (* Queue.unfinished_tasks *)
  results : list B;          (* the shared result list *)
  calls : list A;            (* items the body was run on, in order *)
}.

Definition init (n : nat) (items : list A) : state :=
  {| pc := program n items; workers := []; queue := []; unfinished := 0;
     results := []; calls := [] |}.

Definition set_pc (k : list instr) (s : state) : state :=
  {| pc := k; workers := workers s; queue := queue s;
     unfinished := unfinished s; results := results s; calls := calls s |}.

Definition set_worker (i : nat) (w : worker) (s : state) : state :=
  {| pc := pc s; workers := <[i:=w]> (workers s); queue := queue s;
     unfinished := unfinished s; results := results s; calls := calls s |}.

(** One step of the main thread; [None] when it is blocked or done. *)
Definition step_main (s : state) : option state :=
  match pc s with
  | [] => None
  | Start :: k =>
      Some {| pc := k; workers := workers s ++ [Waiting]; queue := queue s;
              unfinished := unfinished s; results := results s; calls := calls s |}
  | Put x :: k =>
      Some {| pc := k; workers := workers s; queue := queue s ++ [x];
              unfinished := S (unfinished s); results := results s; calls := calls s |}
  | Join :: k =>
      if decide (unfinished s = 0%nat) then Some (set_pc k s) else None
  | JoinThread i :: k =>
      match workers s !! i with
      | Some Stopped => Some (set_pc k s)
      | _ => None
      end
  end.

(** One step of worker [i]; [None] when it is blocked or stopped. *)
Definition step_worker (i : nat) (s : state) : option state :=
  match workers s !! i with
  | Some Waiting =>
      match queue s with
      | [] => None
      | x :: q =>
          Some {| pc := pc s;
                  workers := <[i := match x with Some a => Holding a | None => Stopped end]>
                               (workers s);
                  queue := q; unfinished := unfinished s;
                  results := results s; calls := calls s |}
      end
  | Some (Holding a) =>
      match body a with
      | Returns r =>
          Some {| pc := pc s; workers := <[i := Computed r]> (workers s);
                  queue := queue s; unfinished := unfinished s;
                  results := results s; calls := calls s ++ [a] |}
      | Raises _ =>      (* the exception leaves through the finally *)
          Some {| pc := pc s; workers := <[i := Dying]> (workers s);
                  queue := queue s; unfinished := unfinished s;
                  results := results s; calls := calls s ++ [a] |}
      | Blocks => None
      end
  | Some (Computed r) =>
      Some {| pc := pc s; workers := <[i := Finishing]> (workers s);
              queue := queue s; unfinished := unfinished s;
              results := results s ++ option_list r; calls := calls s |}
  | Some Finishing =>
      match unfinished s with
      | O => Some (set_worker i Stopped s)   (* task_done() raises ValueError *)
      | S u =>
          Some {| pc := pc s; workers := <[i := Waiting]> (workers s);
                  queue := queue s; unfinished := u;
                  results := results s; calls := calls s |}
      end
  | Some Dying =>      (* finally: q.task_done(); then the thread ends,
                          also when task_done() raises in its turn *)
      Some {| pc := pc s; workers := <[i := Stopped]> (workers s);
              queue := queue s; unfinished := pred (unfinished s);
              results := results s; calls := calls s |}
  | Some Stopped | None => None
  end.

(** Thread [0] is the main thread, thread [S i] is worker [i]. *)
Definition step (t : nat) (s : state) : option state :=
  match t with
  | O => step_main s
  | S i => step_worker i s
  end.

(** Run a schedule: the threads in the order they are given the
    processor; a thread that cannot move leaves the state as it is. *)
Definition exec (sched : list nat) (s : state) : state :=
  foldl (λ s t, default s (step t s)) s sched.

(** An upper bound on the steps a state can still take. *)
Definition instr_weight (i : instr) : nat :=
  match i with
  | Put (Some _) => 5
  | Put None => 2
  | _ => 1
  end.

Definition worker_weight (w : worker) : nat :=
  match w with
  | Holding _ => 3
  | Computed _ => 2
  | Finishing | Dying => 1
  | _ => 0
  end.

Definition entry_weight (x : option A) : nat :=
  match x with Some _ => 4 | None => 1 end.

Definition weight (s : state) : nat :=
  sum_list_with instr_weight (pc s) + sum_list_with worker_weight (workers s)
    + sum_list_with entry_weight (queue s).

(** The first thread that can move, if any. *)
Fixpoint first_step (threads : list nat) (s : state) : option state :=
  match threads with
  | [] => None
  | t :: threads =>
      match step t s with
      | Some s' => Some s'
      | None => first_step threads s
      end
  end.

Definition next_state (s : state) : option state :=
  first_step (seq 0 (S (length (workers s)))) s.

(** Let the threads run until none can move. *)
Fixpoint settle (fuel : nat) (s : state) : state :=
  match fuel with
  | O => s
  | S fuel =>
      match next_state s with
      | Some s' => settle fuel s'
      | None => s
      end
  end.

(** The run that follows [sched] and then lets every thread finish. *)
Definition final (n : nat) (items : list A) (sched : list nat) : state :=
  let s := exec sched (init n items) in
  settle (weight s) s.

(** What the caller of the pool sees: the shared list once the main
    thread has run all its statements, nothing if it never does. *)
Definition run (n : nat) (items : list A) (sched : list nat) : outcome (list B) :=
  let s := final n items sched in
  match pc s with
  | [] => Returns (results s)
  | _ => Blocks
  end.

(** *** What a run is expected to keep *)

(** What an item adds to the shared list once its turn is over. *)
Definition output (a : A) : list B :=
  match body a with
  | Returns r => option_list r
  | _ => []
  end.

(** The item a worker holds and has not yet run the body on. *)
Definition origin (w : worker) : list A :=
  match w with Holding a => [a] | _ => [] end.

(** What a worker will still append. *)
Definition future (w : worker) : list B :=
  match w with
  | Holding a => output a
  | Computed r => option_list r
  | _ => []
  end.

Definition busy (w : worker) : nat :=
  match w with Holding _ | Computed _ | Finishing | Dying => 1 | _ => 0 end.

Definition waiting (w : worker) : nat :=
  match w with Waiting => 1 | _ => 0 end.

(** A worker that will take no further item. *)
Definition lost (w : worker) : nat :=
  match w with Dying | Stopped => 1 | _ => 0 end.

(** The statements after [q.join()]. *)
Definition shutdown (n k i : nat) : list instr :=
  replicate k (Put None) ++ (JoinThread <$> seq i (n - i)).

(** The invariant of a run of [n] threads over [items]: before
    [q.join()] returns every item is in exactly one place (still to be
    put, on the queue, in a worker, or done), the queue holds no
    sentinel and [unfinished] counts the items on the queue and in the
    workers; afterwards nothing is in flight, the queue holds only
    sentinels, at least one for each worker still waiting once all are
    put. *)
Inductive inv (n : nat) (items : list A) (s : state) : Prop :=
| inv_working (k : nat) (todo queued : list A) :
    pc s = replicate k Start ++ (Put ∘ Some <$> todo) ++ Join :: shutdown n n 0 →
    length (workers s) + k = n →
    queue s = Some <$> queued →
    unfinished s = length queued + sum_list_with busy (workers s) →
    items ≡ₚ calls s ++ (workers s ≫= origin) ++ queued ++ todo →
    items ≫= output ≡ₚ
      results s ++ (workers s ≫= future) ++ ((queued ++ todo) ≫= output) →
    inv n items s
| inv_stopping (k i : nat) :
    pc s = shutdown n k i →
    i ≤ n →
    length (workers s) = n →
    Forall (λ w, w = Waiting ∨ w = Stopped) (workers s) →
    Forall (λ x, x = None) (queue s) →
    sum_list_with waiting (workers s) ≤ length (queue s) + k →
    items ≡ₚ calls s →
    items ≫= output ≡ₚ results s →
    inv n items s.

(** Until [q.join()] returns no worker has left its loop. *)
Definition alive (s : state) : Prop :=
  Join ∈ pc s → Forall (λ w, w ≠ Dying ∧ w ≠ Stopped) (workers s).

End Pool.
End Pool.

(** ** [find_valid_emails] *)

Section Finder.
Context {U : UnicodeData} (self : Scout) (net : network).

(** The [try] block of the closure [worker], lines 220-221. *)
Definition probe_body (email : str) : outcome (option str) :=
  ok ← check_smtp self net email;
  Returns (if ok : bool then Some email else None).

(** The [try] statement of the closure [worker] of [find_valid_emails],
    lines 219-223: the [except] clause prints and the loop goes on,
    unless the [print] raises.  The exception it prints was raised by
    [check_smtp(email)]. *)
Definition probe_turn (domain email : str) : outcome (option str) :=
  try_except (probe_body email)
    (λ e, print (stdout net) (error_processing net domain email e);;
          Returns None).

(** Lines 227-272.  [log] is the list of addresses already handed to
    [check_smtp]. *)
Definition schedule_probes (log : list str) (sched : list nat)
    (domain : str) (names : names_arg) : outcome (list str) * list str :=
  match all_emails self domain names with
  | Returns emails =>
      let n := Z.to_nat (num_threads self) in
      (Pool.run (probe_turn domain) n emails sched,
       log ++ Pool.calls (Pool.final (probe_turn domain) n emails sched))
  | Raises e => (Raises e, log)
  | Blocks => (Blocks, log)
  end.

(** [find_valid_emails(domain, names)]: what the call does, and the
    addresses it handed to [check_smtp].  [draws] are the random draws
    of the catch-all check, [sched] the order in which the operating
    system runs the threads. *)
Definition find_valid_emails (draws : nat → nat) (sched : list nat)
    (domain : str) (names : names_arg) : outcome (list str) * list str :=
  if check_catchall self then
    let probed := [random_email draws domain] in
    match check_email_catchall self net draws domain with
    | Returns true => (Returns [], probed)
    | Returns false => schedule_probes probed sched domain names
    | Raises e => (Raises e, probed)
    | Blocks => (Blocks, probed)
    end
  else schedule_probes [] sched domain names.

End Finder.

(** The candidates the probe accepts. *)
Definition deliverable (self : Scout) (net : network) (emails : list str) : list str :=
  e ← emails; Pool.output (probe_body self net) e.

(** What one thread that probes the candidates in turn would return. *)
Definition sequential_result {U : UnicodeData} (self : Scout) (net : network)
    (draws : nat → nat) (domain : str) (names : names_arg) : outcome (list str) :=
  let probe_all := emails ← all_emails self domain names;
                   Returns (deliverable self net emails) in
  if check_catchall self then
    match check_email_catchall self net draws domain with
    | Returns true => Returns []
    | Returns false => probe_all
    | Raises e => Raises e
    | Blocks => Blocks
    end
  else probe_all.

(** Two calls end the same way: both return, with the same addresses the
    same number of times, or both raise the same exception. *)
Definition same_result (o1 o2 : outcome (list str)) : Prop :=
  match o1, o2 with
  | Returns v1, Returns v2 => v1 ≡ₚ v2
  | Raises e1, Raises e2 => e1 = e2
  | _, _ => False
  end.

(** ** [find_valid_emails_bulk] *)

(** A job [{"domain": ..., "names": ...}]; the key ["names"] may be
    missing. *)
Record bulk_job := {
  job_domain : str;
  job_names : option names_arg;
}.

#[global] Instance bulk_job_eq_dec : EqDecision bulk_job.
Proof. solve_decision. Defined.

(** An entry [{"domain": ..., "names": ..., "valid_emails": ...}]. *)
Record bulk_result := {
  res_domain : str;
  res_names : names_arg;
  res_valid_emails : list str;
}.

(** Line 291: an element stays when it does not occur again further on. *)
Fixpoint email_data_clean (email_data : list bulk_job) : list bulk_job :=
  match email_data with
  | [] => []
  | i :: rest =>
      if decide (i ∈ rest) then email_data_clean rest
      else i :: email_data_clean rest
  end.

Section Bulk.
Context {U : UnicodeData} (self : Scout) (net : network).

(** Each job runs its own [find_valid_emails], with its own random draws
    and its own thread schedule. *)
Context (draws_of : bulk_job → nat → nat) (sched_of : bulk_job → list nat).

(** The [try] block of the closure [worker], lines 300-307. *)
Definition job_body (data : bulk_job) : outcome (option bulk_result) :=
  let domain := job_domain data in
  let names := default (NamesList []) (job_names data) in
  valid_emails ← (find_valid_emails self net (draws_of data) (sched_of data)
                    domain names).1;
  Returns (Some {| res_domain := domain; res_names := names;
                   res_valid_emails := valid_emails |}).

(** The [try] statement of the closure [worker] of
    [find_valid_emails_bulk], lines 299-309.  The exception the [except]
    clause prints was raised by [find_valid_emails(domain, names)]. *)
Definition job_turn (data : bulk_job) : outcome (option bulk_result) :=
  try_except (job_body data)
    (λ e, print (stdout net)
            (error_processing net (job_domain data) (job_domain data) e);;
          Returns None).

(** The entries a job leaves in the result list: one when its
    [find_valid_emails] returns, none when it raises (the [except] of
    line 308 appends nothing). *)
Definition job_entries (data : bulk_job) : list bulk_result :=
  let domain := job_domain data in
  let names := default (NamesList []) (job_names data) in
  match (find_valid_emails self net (draws_of data) (sched_of data)
           domain names).1 with
  | Returns valid_emails =>
      [{| res_domain := domain; res_names := names;
          res_valid_emails := valid_emails |}]
  | _ => []
  end.

Definition find_valid_emails_bulk (sched : list nat)
    (email_data : list bulk_job) : outcome (list bulk_result) :=
  Pool.run job_turn (Z.to_nat (num_bulk_threads self))
    (email_data_clean email_data) sched.

End Bulk.

(** ** Sample networks *)

(** A server that answers every command with [code]. *)
Definition uniform_server (code : Z) : smtp_server :=
  {| smtp_ehlo _ := Some 250; smtp_mail _ := Some 250;
     smtp_rcpt _ := Some code; smtp_exit := Some () |}.

(** Every domain has one exchanger, which accepts every recipient. *)
Definition catchall_network : network :=
  {| resolve_mx d := Some [lit "mx." ++ d];
     smtp_connect _ _ _ := Some (uniform_server 250);
     library_error_text _ := lit "Connection unexpectedly closed";
     stdout := utf8_console |}.

(** Every domain has one exchanger, which accepts the listed recipients
    and answers 550 to the others. *)
Definition selective_network (accepted : list str) : network :=
  {| resolve_mx d := Some [lit "mx." ++ d];
     smtp_connect _ _ _ :=
       Some {| smtp_ehlo _ := Some 250; smtp_mail _ := Some 250;
               smtp_rcpt e := Some (if decide (e ∈ accepted) then 250 else 550);
               smtp_exit := Some () |};
     library_error_text _ := lit "Connection unexpectedly closed";
     stdout := utf8_console |}.

(** No domain resolves. *)
Definition dead_network : network :=
  {| resolve_mx _ := None; smtp_connect _ _ _ := None;
     library_error_text _ := lit "The DNS query name does not exist";
     stdout := utf8_console |}.

(** An address, and a domain, that begin with the lone surrogate U+D800:
    Python strings may hold it, UTF-8 has no encoding for it. *)
Definition surrogate_address : str := 0xD800%N :: lit "@example.com".
Definition surrogate_domain : str := 0xD800%N :: lit ".example.com".

(** ** Vocabulary of the further properties *)

(** The catch-all check is enabled and judges the domain catch-all. *)
Definition catchall_hit (self : Scout) (net : network) (draws : nat → nat)
    (domain : str) : Prop :=
  check_catchall self = true
  ∧ check_email_catchall self net draws domain = Returns true.

(** The pre-flight check lets the call go on: it is disabled, or it
    judges the domain not catch-all. *)
Definition preflight_passes (self : Scout) (net : network) (draws : nat → nat)
    (domain : str) : Prop :=
  check_catchall self = true →
  check_email_catchall self net draws domain = Returns false.

(** The addresses the pre-flight check hands to [check_smtp]. *)
Definition preflight_probes (self : Scout) (draws : nat → nat) (domain : str)
    : list str :=
  if check_catchall self then [random_email draws domain] else [].

(** The candidates the probe accepts, in the order of the candidates. *)
Definition accepted (self : Scout) (net : network) (emails : list str) : list str :=
  filter (λ e, check_smtp self net e = Returns true) emails.

Module PoolOrder.
Import Pool.
Local Open Scope nat_scope.
Section PoolOrder.
Context {A B : Type} (body : A → outcome (option B)).

(** The items the main thread has still to put on the queue. *)
Definition pending (pc : list (@instr A)) : list A :=
  i ← pc; match i with Put (Some a) => [a] | _ => [] end.

(** The threads the main thread has still to start. *)
Definition starts (pc : list (@instr A)) : nat :=
  sum_list_with (λ i, match i with Start => 1 | _ => 0 end) pc.

(** With at most one worker the shared list grows in the order of the
    items: what is appended, what the worker holds, what is queued and
    what is still to be put, in this order, is what the items produce. *)
Definition in_order (items : list A) (s : @state A B) : Prop :=
  length (workers s) + starts (pc s) ≤ 1
  ∧ items ≫= output body
    = results s ++ (workers s ≫= future body)
        ++ ((omap id (queue s) ++ pending (pc s)) ≫= output body).

End PoolOrder.
End PoolOrder.

(** * Properties *)

(** ** Strings *)

Lemma split_cons sep s : ∃ w ws, split sep s = w :: ws.
Proof.
  destruct s as [|c s]; simpl; [by eauto|].
  case_decide; [by eauto|]. destruct (split sep s); by eauto.
Qed.

Lemma split_without sep s : sep ∉ s → split sep s = [s].
Proof.
  induction s as [|c s IH]; intros Hs; simpl; [done|].
  apply not_elem_of_cons in Hs as [Hc Hs].
  rewrite decide_False by done. by rewrite IH.
Qed.

Lemma split_with sep s : sep ∈ s → ∃ w1 w2 ws, split sep s = w1 :: w2 :: ws.
Proof.
  induction s as [|c s IH]; intros Hs; [by apply elem_of_nil in Hs|].
  simpl. case_decide as Hc.
  - destruct (split_cons sep s) as (w & ws & ->). by eauto.
  - apply elem_of_cons in Hs as [->|Hs]; [done|].
    destruct (IH Hs) as (w1 & w2 & ws & ->). by eauto.
Qed.

Lemma split_second sep s : is_Some (split sep s !! 1%nat) ↔ sep ∈ s.
Proof.
  split.
  - intros [d Hd]. destruct (decide (sep ∈ s)) as [|Hn]; [done|].
    by rewrite (split_without _ _ Hn) in Hd.
  - intros Hs. destruct (split_with _ _ Hs) as (w1 & w2 & ws & ->). by eexists.
Qed.

(** ** Standard output *)

Lemma can_print_app out s t :
  can_print out (s ++ t) = can_print out s && can_print out t.
Proof. apply forallb_app. Qed.

Lemma can_print_ascii out s : forallb is_ascii s = true → can_print out s = true.
Proof.
  unfold can_print. induction s as [|c s IH]; simpl; [done|].
  intros [-> Hs]%andb_true_iff. by rewrite IH.
Qed.

(** ** The SMTP probe *)

Section ProbeFacts.
Context (self : Scout) (net : network).

(** Only the text of a library's exception may hold a character that is
    not ASCII. *)
Lemma exn_text_printable subject e :
  e ≠ LibraryError → can_print (stdout net) (exn_text net subject e) = true.
Proof. destruct e; [done..|]; intros _; by apply can_print_ascii. Qed.

Lemma error_checking_printable email e :
  can_print (stdout net) (error_checking net email e)
  = can_print (stdout net) email && can_print (stdout net) (exn_text net email e).
Proof.
  unfold error_checking. rewrite !can_print_app.
  by rewrite !(can_print_ascii _ (lit _)) by done.
Qed.

Lemma error_processing_printable domain subject e :
  can_print (stdout net) (error_processing net domain subject e)
  = can_print (stdout net) domain && can_print (stdout net) (exn_text net subject e).
Proof.
  unfold error_processing. rewrite !can_print_app.
  by rewrite !(can_print_ascii _ (lit _)) by done.
Qed.

Lemma smtp_dialogue_returns_or_raises email domain port :
  smtp_dialogue self net email domain port ≠ Blocks.
Proof.
  unfold smtp_dialogue, subscript, with_server, lib.
  destruct (resolve_mx net domain) as [[|mx others]|]; simpl; try done.
  destruct (smtp_connect net mx port (smtp_timeout self)) as [server|]; simpl; try done.
  destruct (smtp_ehlo server _); simpl;
    [destruct (smtp_mail server _); simpl;
      [destruct (smtp_rcpt server email); simpl|]|];
    destruct (smtp_exit server) as [[]|]; simpl; done.
Qed.

(** The [except] clause of lines 67-69, run on [e]. *)
Lemma check_smtp_handler email e :
  (print (stdout net) (error_checking net email e);; Returns false)
  = if can_print (stdout net) (error_checking net email e)
    then Returns false else Raises UnicodeEncodeError.
Proof. unfold print. by destruct (can_print _ _). Qed.

(** [check_smtp] on an address with a domain, by what the guarded
    dialogue does. *)
Lemma check_smtp_with_domain email domain :
  split AT email !! 1%nat = Some domain →
  check_smtp self net email
  = match smtp_dialogue self net email domain 25 with
    | Returns b => Returns b
    | Raises e =>
        if can_print (stdout net) (error_checking net email e)
        then Returns false else Raises UnicodeEncodeError
    | Blocks => Blocks
    end.
Proof.
  intros Hd. unfold check_smtp, check_smtp_on, subscript. rewrite Hd. simpl.
  destruct (smtp_dialogue _ _ _ _ _) as [b|e|]; simpl; [done| |done].
  apply check_smtp_handler.
Qed.

Lemma check_smtp_raises email :
  AT ∉ email → check_smtp self net email = Raises IndexError.
Proof.
  intros Hn. unfold check_smtp, check_smtp_on, subscript.
  by rewrite (split_without _ _ Hn).
Qed.

(** With an ['@'] in it, an address gets its answer unless the [print]
    of the [except] clause raises. *)
Lemma check_smtp_outcome email :
  AT ∈ email →
  (∃ b, check_smtp self net email = Returns b)
  ∨ check_smtp self net email = Raises UnicodeEncodeError.
Proof.
  intros [domain Hd]%split_second. rewrite (check_smtp_with_domain _ _ Hd).
  pose proof (smtp_dialogue_returns_or_raises email domain 25) as Hb.
  destruct (smtp_dialogue _ _ _ _ _) as [b|e|]; [by eauto| |done].
  destruct (can_print _ _); by eauto.
Qed.

Lemma check_smtp_never_blocks email : check_smtp self net email ≠ Blocks.
Proof.
  destruct (decide (AT ∈ email)) as [Hin|Hn].
  - destruct (check_smtp_outcome _ Hin) as [[b ->] | ->]; done.
  - by rewrite check_smtp_raises.
Qed.

Lemma check_smtp_raises_only email e :
  check_smtp self net email = Raises e → e = IndexError ∨ e = UnicodeEncodeError.
Proof.
  destruct (decide (AT ∈ email)) as [Hin|Hn].
  - destruct (check_smtp_outcome _ Hin) as [[b ->] | ->]; [done|].
    intros [= <-]. by right.
  - rewrite check_smtp_raises by done. intros [= <-]. by left.
Qed.

(** When the standard output has the characters of the address and of
    the libraries' text, the probe answers. *)
Lemma check_smtp_returns email :
  AT ∈ email →
  can_print (stdout net) email = true →
  can_print (stdout net) (library_error_text net email) = true →
  ∃ b, check_smtp self net email = Returns b.
Proof.
  intros [domain Hd]%split_second Hemail Htext.
  rewrite (check_smtp_with_domain _ _ Hd).
  pose proof (smtp_dialogue_returns_or_raises email domain 25) as Hb.
  destruct (smtp_dialogue _ _ _ _ _) as [b|e|]; [by eauto| |done].
  rewrite error_checking_printable, Hemail. simpl.
  destruct e; simpl; rewrite ?Htext; by eauto.
Qed.

(** The dialogue yields [true] exactly when every step got its reply and
    the reply to RCPT TO was 250. *)
Lemma smtp_dialogue_true email domain port :
  smtp_dialogue self net email domain port = Returns true ↔
  ∃ mx others server hello sender,
    resolve_mx net domain = Some (mx :: others)
    ∧ smtp_connect net mx port (smtp_timeout self) = Some server
    ∧ smtp_ehlo server (lit "example.com") = Some hello
    ∧ smtp_mail server (lit "test@example.com") = Some sender
    ∧ smtp_rcpt server email = Some 250
    ∧ smtp_exit server = Some ().
Proof.
  unfold smtp_dialogue, subscript, with_server, lib. split.
  - destruct (resolve_mx net domain) as [[|mx others]|]; simpl; try done.
    destruct (smtp_connect net mx port (smtp_timeout self)) as [server|] eqn:Hc;
      simpl; try done.
    destruct (smtp_ehlo server _) as [hello|] eqn:He; simpl;
      [destruct (smtp_mail server _) as [sender|] eqn:Hm; simpl;
        [destruct (smtp_rcpt server email) as [code|] eqn:Hr; simpl|]|];
      destruct (smtp_exit server) as [[]|] eqn:Hx; simpl; try done.
    intros [= H250%bool_decide_eq_true]. subst code.
    by exists mx, others, server, hello, sender.
  - intros (mx & others & server & hello & sender & -> & Hc & He & Hm & Hr & Hx).
    simpl. rewrite Hc. simpl. by rewrite He, Hm, Hr, Hx.
Qed.

(** The probe answers [True] exactly when the dialogue does: the
    [except] clause never answers [True]. *)
Lemma check_smtp_true email domain :
  split AT email !! 1%nat = Some domain →
  check_smtp self net email = Returns true ↔
  smtp_dialogue self net email domain 25 = Returns true.
Proof.
  intros Hd. rewrite (check_smtp_with_domain _ _ Hd).
  destruct (smtp_dialogue _ _ _ _ _) as [b|e|]; [done| |done].
  by destruct (can_print _ _).
Qed.

End ProbeFacts.

(** C2.  For an address that contains ['@'], [check_smtp] returns [True]
    exactly when the MX lookup, the connection and every command of the
    dialogue (teardown included) got through without an exception and the
    reply code to RCPT TO was 250.  An exception of the dialogue is caught,
    but the function returns [False] only when the [print] of the
    [except] clause gets its text out: when the standard output cannot
    encode the address or the text of the exception, [check_smtp] raises
    [UnicodeEncodeError] instead of returning [False]. *)
Theorem check_smtp_exception_may_escape (self : Scout) (net : network) (email : str) :
  AT ∈ email →
  ∃ domain,
    split AT email !! 1%nat = Some domain
    ∧ (check_smtp self net email = Returns true ↔
       ∃ mx others server hello sender,
         resolve_mx net domain = Some (mx :: others)
         ∧ smtp_connect net mx 25 (smtp_timeout self) = Some server
         ∧ smtp_ehlo server (lit "example.com") = Some hello
         ∧ smtp_mail server (lit "test@example.com") = Some sender
         ∧ smtp_rcpt server email = Some 250
         ∧ smtp_exit server = Some ())
    ∧ ∀ e, smtp_dialogue self net email domain 25 = Raises e →
        check_smtp self net email
        = if can_print (stdout net) email
             && can_print (stdout net) (exn_text net email e)
          then Returns false else Raises UnicodeEncodeError.
Proof.
  intros Hat. destruct (proj2 (split_second AT email) Hat) as [domain Hd].
  exists domain. split; [done|]. split.
  - rewrite (check_smtp_true _ _ _ _ Hd). apply smtp_dialogue_true.
  - intros e He. rewrite (check_smtp_with_domain _ _ _ _ Hd), He.
    by rewrite error_checking_printable.
Qed.

Lemma check_smtp_exception_may_escape_witness :
  smtp_dialogue default_scout dead_network surrogate_address (lit "example.com") 25
  = Raises LibraryError
  ∧ check_smtp default_scout dead_network surrogate_address
    = Raises UnicodeEncodeError.
Proof.
  destruct (check_smtp_exception_may_escape default_scout dead_network
              surrogate_address) as (domain & Hd & _ & Hraise).
  { vm_compute. do 1 right. left. }
  injection Hd as <-.
  split; [reflexivity|]. rewrite (Hraise LibraryError); reflexivity.
Defined.

(** C10.  [check_smtp] raises [IndexError] exactly on the strings without
    ['@']: the subscript [email.split('@')[1]] sits outside the [try].  On
    a string with ['@'] it returns a boolean, except that it raises
    [UnicodeEncodeError] exactly when the dialogue raised and the
    standard output cannot encode the text the [except] clause prints. *)
Theorem check_smtp_total_iff_at_and_printed (self : Scout) (net : network) (email : str) :
  (check_smtp self net email = Raises IndexError ↔ AT ∉ email)
  ∧ (check_smtp self net email = Raises UnicodeEncodeError ↔
     ∃ domain e,
       split AT email !! 1%nat = Some domain
       ∧ smtp_dialogue self net email domain 25 = Raises e
       ∧ can_print (stdout net) (error_checking net email e) = false)
  ∧ ((∃ b : bool, check_smtp self net email = Returns b)
     ∨ check_smtp self net email = Raises IndexError
     ∨ check_smtp self net email = Raises UnicodeEncodeError).
Proof.
  destruct (decide (AT ∈ email)) as [Hat|Hat].
  - destruct (proj2 (split_second AT email) Hat) as [domain Hd].
    rewrite (check_smtp_with_domain _ _ _ _ Hd).
    pose proof (smtp_dialogue_returns_or_raises self net email domain 25) as Hb.
    destruct (smtp_dialogue _ _ _ _ _) as [b|e|] eqn:Hdialogue; [| |done].
    + split; [split; [done|by intros []]|]. split; [|by eauto].
      split; [done|]. intros (d & e & Hd' & He & _). congruence.
    + destruct (can_print _ _) eqn:Hprint.
      * split; [split; [done|by intros []]|]. split; [|by eauto].
        split; [done|]. intros (d & e' & Hd' & He & Hp).
        rewrite Hd in Hd'. injection Hd' as <-. rewrite Hdialogue in He.
        injection He as <-. congruence.
      * split; [split; [done|by intros []]|]. split; [|by auto].
        split; [|done]. intros _. by exists domain, e.
  - rewrite (check_smtp_raises _ _ _ Hat).
    split; [done|]. split; [|by auto].
    split; [done|]. intros (d & e & Hd & _). destruct Hat.
    apply split_second. by eexists.
Qed.

Lemma check_smtp_total_iff_at_and_printed_witness :
  AT ∈ surrogate_address
  ∧ check_smtp default_scout dead_network surrogate_address
    = Raises UnicodeEncodeError
  ∧ check_smtp default_scout dead_network (lit "example.com") = Raises IndexError.
Proof.
  destruct (check_smtp_total_iff_at_and_printed default_scout dead_network
              surrogate_address) as (_ & [_ Hprint] & _).
  destruct (check_smtp_total_iff_at_and_printed default_scout dead_network
              (lit "example.com")) as ([_ Hindex] & _).
  split; [vm_compute; do 1 right; left|]. split.
  - apply Hprint. exists (lit "example.com"), LibraryError. by vm_compute.
  - apply Hindex. vm_compute. intros H.
    repeat (inversion H as [|? ? ? H']; clear H; rename H' into H).
Defined.

(** ** Name normalisation *)

Ltac char_class :=
  unfold ascii_upper, ascii_lower, is_alnum in *;
  unfold is_ascii, is_upper, is_lower, is_digit in *;
  repeat case_match;
  repeat match goal with
    | H : _ && _ = true |- _ => apply andb_true_iff in H as [? ?]
    | H : _ || _ = true |- _ => apply orb_true_iff in H as [?|?]
    | H : _ && _ = false |- _ => apply andb_false_iff in H as [?|?]
    | H : _ || _ = false |- _ => apply orb_false_iff in H as [? ?]
    | H : (_ <=? _)%N = true |- _ => apply N.leb_le in H
    | H : (_ <=? _)%N = false |- _ => apply N.leb_gt in H
    | H : (_ <? _)%N = true |- _ => apply N.ltb_lt in H
    | H : (_ <? _)%N = false |- _ => apply N.ltb_ge in H
    end;
  repeat first
    [ rewrite andb_true_iff | rewrite orb_true_iff | rewrite andb_false_iff
    | rewrite orb_false_iff | rewrite N.leb_le | rewrite N.leb_gt
    | rewrite N.ltb_lt | rewrite N.ltb_ge ];
  try lia.

Lemma is_alnum_ascii c : is_alnum c = true → is_ascii c = true.
Proof. intros H. char_class. Qed.

Lemma ascii_upper_ascii c : is_ascii c = true → is_ascii (ascii_upper c) = true.
Proof. intros H. char_class. Qed.

Lemma ascii_lower_upper c : is_alnum c = true → ascii_lower (ascii_upper c) = ascii_lower c.
Proof. intros H. char_class. Qed.

Lemma ascii_lower_alnum c : is_alnum c = true → is_alnum (ascii_lower c) = true.
Proof. intros H. char_class. Qed.

Lemma ascii_lower_not_upper c : is_upper (ascii_lower c) = false.
Proof. char_class. Qed.

Lemma ascii_lower_id c : is_upper c = false → ascii_lower c = c.
Proof. intros H. unfold ascii_lower. by rewrite H. Qed.

Lemma forallb_Forall {A} (f : A → bool) l : forallb f l = true ↔ Forall (λ x, f x = true) l.
Proof. rewrite forallb_forall, Forall_forall. by setoid_rewrite list_elem_of_In. Qed.

Lemma filter_all {A} (f : A → bool) (l : list A) :
  Forall (λ x, f x = true) l → filter (λ x, f x = true) l = l.
Proof.
  induction 1 as [|x l Hx _ IH]; [done|].
  by rewrite filter_cons_True, IH.
Qed.

Section NormalizerFacts.
Context {U : UnicodeData}.

Lemma normalize_name_alnum name : Forall (λ c, is_alnum c = true) (normalize_name name).
Proof.
  unfold normalize_name, strip_non_alnum. apply Forall_forall.
  by intros c [? _]%list_elem_of_filter.
Qed.

Lemma unidecode_ascii s : Forall (λ c, is_ascii c = true) s → unidecode s = s.
Proof.
  unfold unidecode. induction 1 as [|c s Hc _ IH]; [done|].
  rewrite bind_cons, IH, Hc. done.
Qed.

Context {L : UnicodeAscii U}.

(** On a string of ASCII letters and digits the whole pipeline is the
    ASCII lower-casing. *)
Lemma normalize_name_on_alnum s :
  Forall (λ c, is_alnum c = true) s → normalize_name s = ascii_lower <$> s.
Proof.
  intros Hs.
  assert (Forall (λ c, is_ascii c = true) s) as Ha.
  { eapply Forall_impl; [exact Hs|]. apply is_alnum_ascii. }
  assert (Forall (λ c, is_alnum c = true) (ascii_lower <$> s)) as Hl.
  { apply Forall_fmap. eapply Forall_impl; [exact Hs|]. apply ascii_lower_alnum. }
  assert (Forall (λ c, is_ascii c = true) (ascii_lower <$> s)) as Hla.
  { eapply Forall_impl; [exact Hl|]. apply is_alnum_ascii. }
  unfold normalize_name.
  rewrite (str_upper_ascii s) by by apply forallb_Forall.
  rewrite str_lower_ascii.
  2:{ apply forallb_Forall, Forall_fmap. eapply Forall_impl; [exact Ha|].
      apply ascii_upper_ascii. }
  rewrite <-list_fmap_compose.
  assert ((ascii_lower ∘ ascii_upper) <$> s = ascii_lower <$> s) as ->.
  { apply Forall_fmap_ext. eapply Forall_impl; [exact Hs|].
    intros c Hc. by apply ascii_lower_upper. }
  rewrite (unidecode_ascii _ Hla).
  rewrite nfkd_ascii by by apply forallb_Forall.
  unfold ascii_ignore, strip_non_alnum.
  by rewrite (filter_all is_ascii), (filter_all is_alnum).
Qed.

(** Normalising twice lower-cases the first result. *)
Lemma normalize_name_twice name :
  normalize_name (normalize_name name) = ascii_lower <$> normalize_name name.
Proof. apply normalize_name_on_alnum, normalize_name_alnum. Qed.

(** So a second pass changes nothing exactly when the first one left no
    capital letter. *)
Lemma normalize_name_fixpoint name :
  normalize_name (normalize_name name) = normalize_name name
  ↔ Forall (λ c, is_upper c = false) (normalize_name name).
Proof.
  rewrite normalize_name_twice. generalize (normalize_name name) as s.
  induction s as [|c s IH]; [done|]. rewrite fmap_cons, Forall_cons. split.
  - intros [= Hc Hs]. split; [|by apply IH].
    rewrite <-Hc. apply ascii_lower_not_upper.
  - intros [Hc Hs]. f_equal; [by apply ascii_lower_id | by apply IH].
Qed.

Lemma normalize_name_empty : normalize_name [] = [].
Proof. by rewrite (normalize_name_on_alnum []). Qed.

End NormalizerFacts.

(** The excerpt obeys the ASCII laws. *)
#[global] Instance excerpt_ascii : UnicodeAscii Excerpt.unicode.
Proof.
  split; simpl.
  - intros s Hs%forallb_Forall. apply Forall_fmap_ext.
    eapply Forall_impl; [done|]. intros c Hc. unfold Excerpt.upper1. by rewrite Hc.
  - intros s Hs%forallb_Forall. apply Forall_fmap_ext.
    eapply Forall_impl; [done|]. intros c Hc. unfold Excerpt.lower1. by rewrite Hc.
  - intros c. unfold Excerpt.table. repeat case_match; reflexivity.
  - intros s Hs%forallb_Forall. induction Hs as [|c s Hc _ IH]; [done|].
    rewrite bind_cons, IH. unfold Excerpt.decompose.
    repeat case_match; try reflexivity; subst; discriminate Hc.
Qed.

(** The repository's tests of [normalize_name] ([tests/test_scout.py]). *)
Example test_normalize_name_basic :
  normalize_name (lit "John") = lit "john"
  ∧ normalize_name (lit "ANNA") = lit "anna"
  ∧ normalize_name (lit "Akyaz" ++ [0x131%N]) = lit "akyazi"
  ∧ normalize_name (0x15E%N :: lit "ahin") = lit "sahin"
  ∧ normalize_name (lit "Fran" ++ 0xE7%N :: lit "ois") = lit "francois"
  ∧ normalize_name [0x141; 0x107; 0x142; 0x105; 0x144; 0x15B; 0x15F; 0xF6; 0xFC]%N
    = lit "lclanssou".
Proof. repeat split; reflexivity. Qed.

(** C9.  [normalize_name] is not idempotent on U+5317: the case folding of
    line 104 runs before the transliteration of line 107, which writes the
    ideograph as ["Bei "]; the first pass returns ["Bei"], the second
    ["bei"]. *)
Theorem normalize_name_twice_differs :
  normalize_name [0x5317%N] = lit "Bei"
  ∧ normalize_name (normalize_name [0x5317%N]) = lit "bei"
  ∧ normalize_name (normalize_name [0x5317%N]) ≠ normalize_name [0x5317%N].
Proof. repeat split; [reflexivity..|discriminate]. Qed.

(** ** Candidate generation *)


Lemma address_inj domain : Inj (=) (=) (address domain).
Proof. intros l1 l2 H. unfold address in H. by apply app_inv_tail in H. Qed.

Section VariantFacts.
Context {U : UnicodeData}.

Lemma generate_email_variants_inv names domain nz l :
  generate_email_variants names domain nz = Returns l →
  ∃ variants : gset str, l = address domain <$> elements variants.
Proof.
  unfold generate_email_variants.
  destruct (add_individual _ _) as [variants| |]; simpl; intros [= <-]. by eexists.
Qed.

Lemma generate_email_variants_NoDup names domain nz l :
  generate_email_variants names domain nz = Returns l → NoDup l.
Proof.
  intros (variants & ->)%generate_email_variants_inv.
  apply (NoDup_fmap_2 _), NoDup_elements.
Qed.

Lemma generate_email_variants_domain names domain nz l :
  generate_email_variants names domain nz = Returns l → Forall (has_domain domain) l.
Proof.
  intros (variants & ->)%generate_email_variants_inv.
  apply Forall_fmap, Forall_forall. intros v _. by exists v.
Qed.

(** An empty token makes the last loop raise. *)
Lemma add_individual_empty names variants :
  [] ∈ names → add_individual names variants = Raises IndexError.
Proof.
  revert variants. induction names as [|name names IH]; intros variants Hin.
  - by apply elem_of_nil in Hin.
  - simpl. destruct name as [|c name]; [done|].
    apply elem_of_cons in Hin as [?|Hin]; [done|].
    simpl. by apply IH.
Qed.

Lemma add_individual_returns names variants :
  [] ∉ names → ∃ result, add_individual names variants = Returns result.
Proof.
  revert variants. induction names as [|name names IH]; intros variants Hn.
  - by eexists.
  - apply not_elem_of_cons in Hn as [Hne Hn].
    destruct name as [|c name]; [done|]. simpl. by apply IH.
Qed.

End VariantFacts.

(** C8.  Every candidate of [generate_email_variants] and of
    [generate_prefixes] is a local part followed by ['@'] and the input
    domain, and with custom prefixes [generate_prefixes] returns exactly
    [prefix@domain] for each prefix, in input order. *)
Theorem candidates_end_with_domain {U : UnicodeData} (domain : str) :
  (∀ names nz l,
     generate_email_variants names domain nz = Returns l →
     Forall (has_domain domain) l)
  ∧ (∀ custom_prefixes,
       Forall (has_domain domain) (generate_prefixes domain custom_prefixes))
  ∧ (∀ prefixes,
       generate_prefixes domain (Some prefixes)
       = (λ pre, pre ++ AT :: domain) <$> prefixes).
Proof.
  split; [|split].
  - intros names nz l. apply generate_email_variants_domain.
  - intros custom. unfold generate_prefixes.
    apply Forall_fmap, Forall_forall. intros v _. by exists v.
  - done.
Qed.

Lemma candidates_end_with_domain_witness :
  Forall (has_domain (lit "example.com"))
    (address (lit "example.com") <$> (lit <$> ["john"; "j"]%string))
  ∧ generate_prefixes (lit "example.com") (Some [lit "a"; lit "b"])
    = [lit "a@example.com"; lit "b@example.com"].
Proof.
  destruct (candidates_end_with_domain (U:=Excerpt.unicode) (lit "example.com"))
    as (Hvariants & _ & Hcustom).
  split.
  - apply (Hvariants [lit "John"] true). vm_compute. reflexivity.
  - rewrite Hcustom. reflexivity.
Defined.

(** C5.  A token list with an empty string makes
    [generate_email_variants] raise [IndexError] at [name[0]] (line 188),
    with and without normalisation. *)
Theorem generate_email_variants_empty_token
    {U : UnicodeData} {L : UnicodeAscii U} (names : list str) (domain : str) (nz : bool) :
  [] ∈ names → generate_email_variants names domain nz = Raises IndexError.
Proof.
  intros Hin. unfold generate_email_variants.
  rewrite add_individual_empty; [done|].
  destruct nz; [|done].
  apply list_elem_of_fmap. exists []. by rewrite normalize_name_empty.
Qed.

Lemma generate_email_variants_empty_token_witness :
  generate_email_variants [lit "john"; lit ""] (lit "example.com") true
  = Raises IndexError.
Proof.
  apply (generate_email_variants_empty_token (U:=Excerpt.unicode)).
  vm_compute. right. left.
Defined.

(** The same failure reaches [find_valid_emails] through a doubled space,
    and through a name that normalises to nothing. *)
Example all_emails_double_space :
  all_emails default_scout (lit "example.com") (NamesStr (lit "john  smith"))
  = Raises IndexError
  ∧ all_emails default_scout (lit "example.com") (NamesList [lit "john"; lit "!"])
    = Raises IndexError.
Proof. split; reflexivity. Qed.

(** ** The size of the variant set *)

Local Open Scope nat_scope.


Lemma length_bind_const {A B} (f : A → list B) (l : list A) (k : nat) :
  Forall (λ x, length (f x) = k) l → length (l ≫= f) = length l * k.
Proof.
  induction 1 as [|x l Hx _ IH]; [done|].
  rewrite bind_cons, length_app, IH, Hx. simpl. lia.
Qed.

Lemma length_bind_sum {A B} (f : A → list B) (l : list A) :
  length (l ≫= f) = sum_list (length ∘ f <$> l).
Proof.
  induction l as [|x l IH]; [done|].
  rewrite bind_cons, length_app, IH. done.
Qed.

Lemma length_selects {A} (l : list A) : length (selects l) = length l.
Proof. induction l as [|x l IH]; simpl; [done|]. by rewrite length_fmap, IH. Qed.

Lemma selects_rest {A} (l : list A) :
  Forall (λ p, S (length p.2) = length l) (selects l).
Proof.
  induction l as [|x l IH]; simpl; [by constructor|]. constructor; [done|].
  apply Forall_fmap. eapply Forall_impl; [exact IH|]. intros p Hp. simpl. by rewrite Hp.
Qed.

Lemma selects_first {A} (l : list A) : fst <$> selects l = l.
Proof.
  induction l as [|x l IH]; simpl; [done|]. f_equal.
  rewrite <-list_fmap_compose. rewrite <-IH at 2. by apply list_fmap_ext.
Qed.

Lemma length_permutations {A} (l : list A) r :
  length (permutations l r) = falling (length l) r.
Proof.
  revert l. induction r as [|r IH]; intros l; [done|]. simpl.
  rewrite (length_bind_const _ _ (falling (length l - 1) r)).
  - by rewrite length_selects.
  - eapply Forall_impl; [apply selects_rest|]. intros p Hp. simpl in *.
    rewrite length_fmap, IH. f_equal. lia.
Qed.

Lemma permutations_one {A} (l : list A) : permutations l 1 = (λ x, [x]) <$> l.
Proof.
  simpl. rewrite <-(selects_first l) at 2. rewrite <-list_fmap_compose.
  generalize (selects l) as ps. induction ps as [|p ps IH]; [done|].
  rewrite bind_cons, IH. done.
Qed.

Lemma size_union_le (X Y : gset str) : size (X ∪ Y) ≤ size X + size Y.
Proof.
  rewrite size_union_alt. apply Nat.add_le_mono_l, subseteq_size. set_solver.
Qed.

Lemma size_list_to_set_le (l : list str) : size (list_to_set l : gset str) ≤ length l.
Proof.
  induction l as [|x l IH].
  - rewrite list_to_set_nil, size_empty. done.
  - rewrite list_to_set_cons. etrans; [apply size_union_le|].
    rewrite size_singleton. simpl. lia.
Qed.


Lemma length_joined ps : length (joined ps) = 2 * length ps.
Proof.
  unfold joined. rewrite (length_bind_const _ _ 2); [lia|].
  by apply Forall_forall.
Qed.

Lemma foldl_add_combination (ps : list (list str)) (vs : gset str) :
  foldl add_combination vs ps = list_to_set (joined ps) ∪ vs.
Proof.
  revert vs. induction ps as [|p ps IH]; intros vs; simpl.
  - set_solver.
  - rewrite IH. unfold add_combination, set_add. set_solver.
Qed.

Lemma foldl_add_combinations (names : list str) (rs : list nat) (vs : gset str) :
  foldl (λ vs r, foldl add_combination vs (permutations names r)) vs rs
  = list_to_set (r ← rs; joined (permutations names r)) ∪ vs.
Proof.
  revert vs. induction rs as [|r rs IH]; intros vs; simpl.
  - set_solver.
  - rewrite IH, foldl_add_combination, list_to_set_app_L. set_solver.
Qed.

Lemma joined_singletons (names : list str) :
  (list_to_set (joined ((λ x, [x]) <$> names)) : gset str) = list_to_set names.
Proof.
  induction names as [|x names IH]; [done|].
  rewrite fmap_cons. unfold joined in *. rewrite bind_cons. simpl in *.
  rewrite IH. set_solver.
Qed.

Lemma add_individual_set (names : list str) (vs X : gset str) :
  add_individual names vs = Returns X →
  ∃ initials, length initials = length names
              ∧ X = list_to_set names ∪ list_to_set initials ∪ vs.
Proof.
  revert vs. induction names as [|name names IH]; intros vs; simpl.
  - intros [= <-]. exists []. split; [done|]. set_solver.
  - destruct name as [|c name]; [done|]. simpl.
    intros (initials & Hlen & ->)%IH. exists ([c] :: initials).
    split; [by rewrite <-Hlen|]. unfold set_add. set_solver.
Qed.

Section VariantBound.
Context {U : UnicodeData}.

Lemma variants_size (names : list str) (X : gset str) :
  add_individual names (add_combinations names ∅) = Returns X →
  size X ≤ variant_bound (length names).
Proof.
  intros (initials & Hlen & ->)%add_individual_set.
  unfold add_combinations. rewrite foldl_add_combinations.
  set (n := length names) in *.
  set (longer := r ← seq 2 (n - 1); joined (permutations names r)).
  assert (length longer = 2 * sum_list (falling n <$> seq 2 (n - 1))) as Hlonger.
  { unfold longer. rewrite length_bind_sum.
    generalize (seq 2 (n - 1)) as rs. induction rs as [|r rs IH]; [done|].
    rewrite !fmap_cons. simpl sum_list. rewrite IH. simpl.
    rewrite length_joined, length_permutations. fold n. lia. }
  assert ((list_to_set names ∪ list_to_set initials
           ∪ (list_to_set (r ← seq 1 n; joined (permutations names r)) ∪ ∅) : gset str)
          ⊆ list_to_set names ∪ list_to_set initials ∪ list_to_set longer) as Hsub.
  { destruct n as [|n'] eqn:Hn; [set_solver|].
    simpl seq. rewrite bind_cons, list_to_set_app_L, permutations_one,
      joined_singletons.
    unfold longer. replace (S n' - 1) with n' by lia. set_solver. }
  etrans; [apply (subseteq_size _ _ Hsub)|].
  etrans; [apply size_union_le|].
  etrans; [apply Nat.add_le_mono_r, size_union_le|].
  pose proof (size_list_to_set_le names). pose proof (size_list_to_set_le initials).
  pose proof (size_list_to_set_le longer).
  unfold variant_bound. fold n in H. lia.
Qed.

End VariantBound.

(** C4, amended.  [generate_email_variants] builds its variants from the
    arrangements of every length from 1 to N (line 179), not only of the
    full list: for N tokens it returns at most
    [2 * (sum over r = 2..N of N!/(N-r)!) + N + N] candidates, which is 8
    for N = 2. *)
Theorem generate_email_variants_bound
    {U : UnicodeData} (names : list str) (domain : str) (nz : bool) (l : list str) :
  generate_email_variants names domain nz = Returns l →
  length l ≤ variant_bound (length names) ∧ variant_bound 2 = 8.
Proof.
  intros Hl. split; [|done]. unfold generate_email_variants in Hl.
  destruct (add_individual _ _) as [X| |] eqn:HX; simplify_eq/=.
  rewrite length_fmap. apply variants_size in HX.
  destruct nz; by rewrite ?length_fmap in HX.
Qed.

Lemma generate_email_variants_bound_witness :
  length (address (lit "example.com") <$>
            (lit <$> ["s"; "smithjohn"; "smith.john"; "john"; "j"; "johnsmith";
                      "john.smith"; "smith"]%string))
  ≤ variant_bound 2 ∧ variant_bound 2 = 8.
Proof.
  apply (generate_email_variants_bound (U:=Excerpt.unicode)
           [lit "John"; lit "Smith"] (lit "example.com") true).
  vm_compute. reflexivity.
Defined.

(** C4, as stated, fails for three tokens: 30 candidates, against
    [3!*2 + 3 + 3 = 18]. *)
Lemma generate_email_variants_exceeds_stated_bound :
  ∃ l, generate_email_variants [lit "ab"; lit "cd"; lit "ef"] (lit "example.com") true
       = Returns l
       ∧ length l = 30
       ∧ ¬ length l ≤ fact 3 * 2 + 3 + 3.
Proof. eexists. split; [vm_compute; reflexivity|]. split; [done|]. vm_compute. lia. Qed.

(** ** Duplicates among the candidates *)

Lemma common_prefixes_NoDup : NoDup common_prefixes.
Proof. apply (bool_decide_unpack (NoDup common_prefixes)). vm_compute. exact I. Qed.

Lemma generate_prefixes_NoDup domain custom_prefixes :
  NoDup (default common_prefixes custom_prefixes) →
  NoDup (generate_prefixes domain custom_prefixes).
Proof. intros H. unfold generate_prefixes. by apply (NoDup_fmap_2 _). Qed.

Lemma split_list_data_cons name names : split_list_data (name :: names) ≠ [].
Proof.
  unfold split_list_data. rewrite bind_cons.
  by destruct (split_cons SPACE name) as (w & ws & ->).
Qed.

Section CandidateFacts.
Context {U : UnicodeData} (self : Scout).

(** The candidates of a single name, or of one flat list of names, are
    pairwise distinct. *)
Lemma all_emails_NoDup domain names l :
  (∀ first rest, names ≠ NamesNested first rest) →
  all_emails self domain names = Returns l → NoDup l.
Proof.
  intros Hflat. unfold all_emails, variant_stage.
  destruct (check_variants self && truthy names) eqn:Hv.
  - apply andb_true_iff in Hv as [_ Ht].
    assert (∃ name rest, match names with
                         | NamesStr s => NamesList (split SPACE s)
                         | other => other
                         end = NamesList (name :: rest)) as (name & rest & ->).
    { destruct names as [|s|[|name rest]|first rest]; simpl in Ht; try done.
      - destruct (split_cons SPACE s) as (w & ws & ->). by eauto.
      - by eauto.
      - by destruct (Hflat first rest). }
    destruct (generate_email_variants _ _ _) as [vs| |] eqn:Hvs; simpl; try done.
    rewrite bool_decide_true by apply (split_list_data_cons name rest).
    rewrite andb_false_r, app_nil_r. intros [= <-].
    by eapply generate_email_variants_NoDup.
  - simpl. intros [= <-].
    destruct (check_prefixes self && negb (truthy names)); [|by constructor].
    apply generate_prefixes_NoDup, common_prefixes_NoDup.
Qed.

End CandidateFacts.

(** C3.  With a list of name lists the candidates of the lists are
    concatenated as they come (line 239): two people who share a name put
    the same address on the queue twice, it is probed twice and, when
    deliverable, returned twice. *)
Theorem nested_names_duplicate_candidates :
  let domain := lit "example.com" in
  let names := NamesNested [lit "john"; lit "smith"] [[lit "john"; lit "doe"]] in
  (∃ l, all_emails default_scout domain names = Returns l
        ∧ ¬ NoDup l
        ∧ length (filter (λ e, e = lit "john@example.com") l) = 2)
  ∧ (find_valid_emails default_scout (selective_network [lit "john@example.com"])
       (λ _, 0) [] domain names).1
    = Returns [lit "john@example.com"; lit "john@example.com"].
Proof.
  split; [|vm_compute; reflexivity].
  eexists. split; [vm_compute; reflexivity|]. split; [|vm_compute; reflexivity].
  match goal with |- ¬ ?P => apply (bool_decide_eq_false_1 P) end.
  vm_compute. reflexivity.
Qed.

(** ** The worker pool *)

Lemma lookup_split {X} (l : list X) (i : nat) (x : X) :
  l !! i = Some x →
  ∃ pre post, l = pre ++ x :: post ∧ length pre = i
              ∧ ∀ y, <[i:=y]> l = pre ++ y :: post.
Proof.
  intros Hi. exists (take i l), (drop (S i) l).
  pose proof (lookup_lt_Some _ _ _ Hi) as Hlt.
  split; [by rewrite take_drop_middle|].
  split; [rewrite length_take; lia|].
  intros y. by apply insert_take_drop.
Qed.

Module PoolFacts.
Import Pool.
Section PoolFacts.
Context {A B : Type} (body : A → outcome (option B)).

Abbreviation state := (@state A B).
Abbreviation worker := (@worker A B).
Abbreviation output := (output body).
Abbreviation future := (future body).
Abbreviation inv := (inv body).


Lemma inv_init n items : inv n items (init n items).
Proof.
  apply (inv_working _ _ _ _ n items []); simpl; try done.
  unfold program, shutdown. by rewrite Nat.sub_0_r.
Qed.

Lemma sum_busy_zero (ws : list worker) :
  sum_list_with busy ws = 0 → Forall (λ w, w = Waiting ∨ w = Stopped) ws.
Proof.
  induction ws as [|w ws IH]; simpl; intros Hsum; constructor.
  - destruct w; simpl in *; auto; lia.
  - apply IH. lia.
Qed.

Lemma sum_waiting_le (ws : list worker) : sum_list_with waiting ws ≤ length ws.
Proof. induction ws as [|[] ws IH]; simpl; lia. Qed.

Lemma all_waiting (ws : list worker) :
  Forall (λ w, w ≠ Dying ∧ w ≠ Stopped) ws → sum_list_with busy ws = 0 →
  Forall (λ w, w = Waiting) ws.
Proof.
  induction 1 as [|w ws [Hd Hs] _ IH]; simpl; intros Hsum; constructor.
  - destruct w; simpl in *; done || lia.
  - apply IH. lia.
Qed.

Lemma idle_workers (ws : list worker) :
  Forall (λ w, w = Waiting ∨ w = Stopped) ws →
  ws ≫= origin = [] ∧ ws ≫= future = [].
Proof.
  induction 1 as [|w ws [-> | ->] _ (IH2 & IH3)]; [done|..];
    by rewrite !bind_cons, IH2, IH3.
Qed.

(** The main thread keeps the invariant. *)
Lemma step_main_inv n items s s' :
  inv n items s → step_main s = Some s' → inv n items s'.
Proof.
  destruct s as [pc ws q u res cl]. unfold step_main. simpl.
  intros [k todo queued Hpc Hlen Hq Hu Hitems Hout
         |k i Hpc Hi Hlen Hws Hq Hcount Hitems Hout]; simpl in *; subst pc.
  - destruct k as [|k]; simpl; [destruct todo as [|a todo]; simpl|].
    + (* q.join() *)
      case_decide as Hzero; [|done]. intros [= <-]. subst u.
      assert (queued = []) as -> by (apply length_zero_iff_nil; lia).
      assert (Forall (λ w, w = Waiting ∨ w = Stopped) ws) as Hidle
        by (apply sum_busy_zero; lia).
      destruct (idle_workers _ Hidle) as (Horigin & Hfuture).
      rewrite Horigin in Hitems. rewrite Hfuture in Hout. simpl in *.
      rewrite app_nil_r in Hitems. rewrite app_nil_r in Hout. subst q.
      apply (inv_stopping _ _ _ _ n 0); simpl; try done; try lia.
      pose proof (sum_waiting_le ws). lia.
    + (* q.put(email) *)
      intros [= <-].
      apply (inv_working _ _ _ _ 0 todo (queued ++ [a])); simpl; try done.
      * subst q. by rewrite fmap_app.
      * rewrite length_app. simpl. lia.
      * by rewrite <-(assoc_L (++) queued).
      * by rewrite <-(assoc_L (++) queued).
    + (* t.start() *)
      intros [= <-].
      apply (inv_working _ _ _ _ k todo queued); simpl; try done.
      * rewrite length_app. simpl. lia.
      * rewrite sum_list_with_app. simpl. lia.
      * rewrite bind_app. simpl. by rewrite app_nil_r.
      * rewrite bind_app. simpl. by rewrite app_nil_r.
  - unfold shutdown. destruct k as [|k]; simpl.
    + (* threads[i].join() *)
      destruct (n - i) as [|m] eqn:Hm; simpl; [done|].
      destruct (ws !! i) as [[]|]; try done. intros [= <-].
      apply (inv_stopping _ _ _ _ 0 (S i)); simpl; try done; [|lia].
      unfold shutdown. simpl. do 2 f_equal. lia.
    + (* q.put(None) *)
      intros [= <-].
      apply (inv_stopping _ _ _ _ k i); simpl; try done.
      * apply Forall_app. split; [done|]. by constructor.
      * rewrite length_app. simpl. lia.
Qed.

Ltac spread :=
  repeat first
    [ rewrite bind_app | rewrite bind_cons | rewrite sum_list_with_app
    | rewrite length_app | rewrite Forall_app | rewrite Forall_cons ];
  simpl.

Ltac spread_in H :=
  repeat first
    [ rewrite bind_app in H | rewrite bind_cons in H
    | rewrite sum_list_with_app in H | rewrite length_app in H
    | rewrite Forall_app in H | rewrite Forall_cons in H ];
  simpl in H.

Ltac close :=
  first [ done | lia | by repeat split
        | etrans; [eassumption|]; spread; solve_Permutation ].

(** A worker keeps the invariant. *)
Lemma step_worker_inv n items i s s' :
  inv n items s → step_worker body i s = Some s' → inv n items s'.
Proof.
  destruct s as [pc ws q u res cl]. unfold step_worker. simpl.
  destruct (ws !! i) as [w|] eqn:Hi; [|done].
  destruct (lookup_split _ _ _ Hi) as (pre & post & -> & _ & Hins).
  intros [k todo queued Hpc Hlen Hq Hu Hitems Hout
         |k j Hpc Hj Hlen Hws Hq Hcount Hitems Hout]; simpl in *.
  - destruct w as [|a|r| | |];
      spread_in Hlen; spread_in Hu; spread_in Hitems; spread_in Hout;
      [| | | | |done].
    + (* q.get() *)
      destruct queued as [|a queued]; subst q; simpl; [done|].
      intros [= <-]. rewrite Hins. simpl in *.
      apply (inv_working _ _ _ _ k todo queued); simpl; spread; close.
    + (* the body *)
      unfold output at 2 in Hout.
      destruct (body a) as [r| |] eqn:Hbody; [| |done]; intros [= <-];
        rewrite Hins;
        apply (inv_working _ _ _ _ k todo queued); simpl; spread; close.
    + (* valid_emails.append(email) *)
      intros [= <-]. rewrite Hins.
      apply (inv_working _ _ _ _ k todo queued); simpl; spread; close.
    + (* q.task_done() *)
      destruct u as [|u]; [lia|]. intros [= <-]. rewrite Hins.
      apply (inv_working _ _ _ _ k todo queued); simpl; spread; close.
    + (* q.task_done(), on the way out *)
      intros [= <-]. rewrite Hins.
      apply (inv_working _ _ _ _ k todo queued); simpl; spread; close.
  - spread_in Hlen. spread_in Hws. spread_in Hcount.
    destruct Hws as (Hpre & Hw & Hpost).
    destruct Hw as [-> | ->]; [|done].
    destruct q as [|x q]; [done|]. apply Forall_cons in Hq as [-> Hq].
    intros [= <-]. rewrite Hins. simpl in *.
    apply (inv_stopping _ _ _ _ k j); simpl; spread; first [close | by auto].
Qed.

Lemma step_inv n items t s s' :
  inv n items s → step body t s = Some s' → inv n items s'.
Proof.
  destruct t as [|i]; simpl; [apply step_main_inv | apply step_worker_inv].
Qed.

(** Every step uses up weight: a run is never longer than the weight
    of the state it starts from. *)
Lemma step_weight t s s' : step body t s = Some s' → weight s' < weight s.
Proof.
  destruct s as [pc ws q u res cl]. unfold weight.
  destruct t as [|i]; simpl.
  - unfold step_main. simpl.
    destruct pc as [|[|[a|]| |j] pc]; simpl; try done.
    + intros [= <-]. simpl. rewrite sum_list_with_app. simpl. lia.
    + intros [= <-]. simpl. rewrite sum_list_with_app. simpl. lia.
    + intros [= <-]. simpl. rewrite sum_list_with_app. simpl. lia.
    + case_decide; [|done]. intros [= <-]. simpl. lia.
    + destruct (ws !! j) as [[]|]; try done. intros [= <-]. simpl. lia.
  - unfold step_worker. simpl.
    destruct (ws !! i) as [w|] eqn:Hi; [|done].
    destruct (lookup_split _ _ _ Hi) as (pre & post & -> & _ & Hins).
    destruct w as [|a|r| | |]; [| | | | |done].
    + destruct q as [|[a|] q]; [done|..]; intros [= <-]; simpl;
        rewrite Hins, !sum_list_with_app; simpl; lia.
    + destruct (body a); [| |done]; intros [= <-]; simpl;
        rewrite Hins, !sum_list_with_app; simpl; lia.
    + intros [= <-]. simpl. rewrite Hins, !sum_list_with_app. simpl. lia.
    + destruct u; intros [= <-]; simpl;
        rewrite Hins, !sum_list_with_app; simpl; lia.
    + intros [= <-]. simpl. rewrite Hins, !sum_list_with_app. simpl. lia.
Qed.

Lemma exec_inv n items sched s : inv n items s → inv n items (exec body sched s).
Proof.
  revert s. induction sched as [|t sched IH]; intros s Hs; [done|].
  simpl. apply IH. destruct (step body t s) as [s'|] eqn:Hstep; [|done].
  by eapply step_inv.
Qed.

Lemma first_step_Some threads s s' :
  first_step body threads s = Some s' → ∃ t, step body t s = Some s'.
Proof.
  induction threads as [|t threads IH]; simpl; [done|].
  destruct (step body t s) as [s''|] eqn:Hstep; [|done].
  intros [= <-]. by exists t.
Qed.

Lemma first_step_None threads s t :
  first_step body threads s = None → t ∈ threads → step body t s = None.
Proof.
  induction threads as [|t' threads IH]; simpl; [by intros _ ?%elem_of_nil|].
  destruct (step body t' s) as [s''|] eqn:Hstep; [done|].
  intros Hnone [->|Hin]%elem_of_cons; [done|by apply IH].
Qed.

Lemma settle_inv n items fuel s : inv n items s → inv n items (settle body fuel s).
Proof.
  revert s. induction fuel as [|fuel IH]; intros s Hs; [done|]. simpl.
  destruct (next_state body s) as [s'|] eqn:Hnext; [|done].
  apply IH. apply first_step_Some in Hnext as [t Ht]. by eapply step_inv.
Qed.

(** With fuel for its whole weight a state settles where no thread can
    move. *)
Lemma settle_stuck fuel s :
  weight s ≤ fuel → next_state body (settle body fuel s) = None.
Proof.
  revert s. induction fuel as [|fuel IH]; intros s Hw; simpl.
  - destruct (next_state body s) as [s'|] eqn:Hnext; [|done].
    apply first_step_Some in Hnext as [t Ht%step_weight]. lia.
  - destruct (next_state body s) as [s'|] eqn:Hnext; [|done].
    apply IH. apply first_step_Some in Hnext as [t Ht%step_weight]. lia.
Qed.

Lemma busy_worker (ws : list worker) :
  0 < sum_list_with busy ws →
  ∃ i w, ws !! i = Some w ∧ busy w = 1.
Proof.
  induction ws as [|w ws IH]; simpl; [lia|]. intros Hsum.
  destruct (busy w) eqn:Hw.
  - destruct (IH Hsum) as (i & w' & Hi & Hw'). by exists (S i), w'.
  - exists 0, w. split; [done|]. destruct w; simpl in *; lia.
Qed.

Lemma waiting_worker (ws : list worker) i w :
  ws !! i = Some w → w = Waiting → 0 < sum_list_with waiting ws.
Proof.
  intros Hi ->. destruct (lookup_split _ _ _ Hi) as (pre & post & -> & _).
  rewrite sum_list_with_app. simpl. lia.
Qed.

Lemma origin_elem_of (ws : list worker) i a :
  ws !! i = Some (Holding a) → a ∈ ws ≫= origin.
Proof.
  intros Hi. apply list_elem_of_bind. exists (Holding a).
  split; [by left|]. by eapply list_elem_of_lookup_2.
Qed.

Lemma thread_in (ws : list worker) t :
  t ≤ length ws → t ∈ seq 0 (S (length ws)).
Proof. intros Ht. apply elem_of_seq. lia. Qed.

Lemma join_not_in_shutdown n k i : (@Join A) ∉ shutdown n k i.
Proof.
  unfold shutdown. rewrite elem_of_app, elem_of_replicate, list_elem_of_fmap.
  by intros [[? _]|(j & ? & _)].
Qed.

(** The main thread only ever drops the statement it has run. *)
Lemma step_pc t s s' i :
  step body t s = Some s' → i ∈ pc s' → i ∈ pc s.
Proof.
  destruct s as [pc ws q u res cl]. destruct t as [|j]; simpl.
  - unfold step_main. simpl.
    destruct pc as [|[|x| |j] pc]; simpl; try done.
    + intros [= <-]. by right.
    + intros [= <-]. by right.
    + case_decide; [|done]. intros [= <-]. by right.
    + destruct (ws !! j) as [[]|]; try done. intros [= <-]. by right.
  - unfold step_worker. simpl.
    destruct (ws !! j) as [[|a|r| | |]|]; try done.
    + destruct q as [|x q]; [done|]. by intros [= <-].
    + destruct (body a); [| |done]; by intros [= <-].
    + by intros [= <-].
    + destruct u; by intros [= <-].
    + by intros [= <-].
Qed.

(** When the [except] clause never raises on an item, no worker leaves
    its loop before [q.join()] has returned. *)
Lemma step_alive n items t s s' :
  (∀ a e, a ∈ items → body a ≠ Raises e) →
  inv n items s → alive s → step body t s = Some s' → alive s'.
Proof.
  intros Hsafe Hinv Halive Hstep Hjoin.
  pose proof (step_pc _ _ _ _ Hstep Hjoin) as Hbefore.
  specialize (Halive Hbefore). clear Hbefore.
  destruct s as [pc ws q u res cl]. simpl in *.
  destruct Hinv as [k todo queued Hpc Hlen Hq Hu Hitems Hout
                   |k j Hpc Hj Hlen Hws Hq Hcount Hitems Hout]; simpl in *.
  2:{ pose proof (step_pc _ _ _ _ Hstep Hjoin) as Hbefore. simpl in Hbefore.
      rewrite Hpc in Hbefore. by apply join_not_in_shutdown in Hbefore. }
  destruct t as [|i]; simpl in Hstep.
  - unfold step_main in Hstep. simpl in Hstep. subst pc.
    destruct k as [|k]; simpl in Hstep; [destruct todo as [|a todo]; simpl in Hstep|].
    + case_decide; [|done]. injection Hstep as <-. simpl in *.
      by apply join_not_in_shutdown in Hjoin.
    + by injection Hstep as <-.
    + injection Hstep as <-. simpl. apply Forall_app. split; [done|].
      by constructor.
  - unfold step_worker in Hstep. simpl in Hstep.
    destruct (ws !! i) as [w|] eqn:Hi; [|done].
    pose proof (Forall_lookup_1 _ _ _ _ Halive Hi) as [Hd Hs].
    destruct w as [|a|r| | |]; [| | | |done|done].
    + destruct queued as [|a queued]; subst q; simpl in Hstep; [done|].
      injection Hstep as <-. simpl. by apply Forall_insert.
    + assert (a ∈ items) as Ha.
      { rewrite Hitems. apply elem_of_app. right. apply elem_of_app. left.
        apply list_elem_of_bind. exists (Holding a).
        split; [by left|]. by eapply list_elem_of_lookup_2. }
      destruct (body a) as [r|e|] eqn:Hbody; [| |done].
      * injection Hstep as <-. simpl. by apply Forall_insert.
      * by destruct (Hsafe a e Ha).
    + injection Hstep as <-. simpl. by apply Forall_insert.
    + destruct (lookup_split _ _ _ Hi) as (pre & post & -> & _ & _).
      rewrite sum_list_with_app in Hu. simpl in Hu.
      destruct u as [|u]; [lia|]. injection Hstep as <-. simpl.
      by apply Forall_insert.
Qed.

(** Progress: with at least one worker and a body that always comes
    back, some thread can move until the main thread is done. *)
Lemma inv_progress n items s :
  inv n items s → alive s →
  0 < n ∨ items = [] →
  (∀ a, a ∈ items → body a ≠ Blocks) →
  pc s ≠ [] →
  ∃ t, t ∈ seq 0 (S (length (workers s))) ∧ is_Some (step body t s).
Proof.
  destruct s as [pc ws q u res cl]. unfold alive. simpl.
  intros [k todo queued Hpc Hlen Hq Hu Hitems Hout
         |k j Hpc Hj Hlen Hws Hq Hcount Hitems Hout] Hws' Hn Hbody Hrun;
    simpl in *.
  - assert (∀ s', step_main (Build_state pc ws q u res cl) = Some s' →
              ∃ t, t ∈ seq 0 (S (length ws))
                   ∧ is_Some (step body t (Build_state pc ws q u res cl)))
      as Hmain.
    { intros s' Hs'. exists 0. split; [apply (thread_in ws 0); lia|]. by eexists. }
    unfold step_main in Hmain. simpl in Hmain. subst pc.
    destruct k as [|k]; simpl in *; [|by eapply Hmain].
    destruct todo as [|a todo]; simpl in *; [|by eapply Hmain].
    destruct (decide (u = 0)) as [Hu0|Hu0]; [by eapply Hmain|]. clear Hmain.
    (* the main thread waits in q.join() *)
    destruct (decide (0 < sum_list_with busy ws)) as [Hbusy|Hidle].
    + destruct (busy_worker _ Hbusy) as (i & w & Hi & Hw).
      exists (S i). split.
      { apply (thread_in ws (S i)). apply lookup_lt_Some in Hi. lia. }
      simpl. unfold step_worker. simpl. rewrite Hi.
      destruct w as [|a|r| | |]; simpl in Hw; try lia; try by eexists.
      * assert (body a ≠ Blocks) as Ha.
        { apply Hbody. rewrite Hitems.
          apply elem_of_app. right. apply elem_of_app. left.
          by eapply origin_elem_of. }
        destruct (body a); [by eexists..|done].
      * destruct u; by eexists.
    + assert (Forall (λ w, w = Waiting) ws) as Hall.
      { apply all_waiting; [|lia]. apply Hws'. by left. }
      destruct queued as [|a queued]; [simpl in *; lia|].
      assert (0 < n) as Hpos.
      { destruct Hn as [?| ->]; [done|].
        apply Permutation_nil_l in Hitems.
        by destruct cl, (ws ≫= origin). }
      destruct ws as [|w ws]; [simpl in *; lia|].
      apply Forall_cons in Hall as [-> _].
      exists 1. split; [apply (thread_in (Waiting :: ws) 1); simpl; lia|].
      simpl. unfold step_worker. simpl. subst q. by eexists.
  - subst pc. unfold shutdown in *. destruct k as [|k]; simpl in *.
    + destruct (n - j) as [|m] eqn:Hm; simpl in *; [done|].
      destruct (ws !! j) as [w|] eqn:Hw.
      2:{ apply lookup_ge_None in Hw. lia. }
      destruct (Forall_lookup_1 _ _ _ _ Hws Hw) as [-> | ->].
      * (* worker j still waits for its sentinel *)
        pose proof (waiting_worker _ _ _ Hw eq_refl) as Hpos.
        destruct q as [|x q]; [simpl in *; lia|].
        exists (S j). split; [apply (thread_in ws (S j)); lia|].
        simpl. unfold step_worker. simpl. rewrite Hw. by eexists.
      * exists 0. split; [apply (thread_in ws 0); lia|].
        simpl. unfold step_main. simpl. rewrite Hw. by eexists.
    + exists 0. split; [apply (thread_in ws 0); lia|].
      simpl. unfold step_main. simpl. by eexists.
Qed.

Lemma final_inv n items sched : inv n items (final body n items sched).
Proof. unfold final. apply settle_inv, exec_inv, inv_init. Qed.

(** What the initial state has and every step keeps, the final state has. *)
Lemma final_preserves (P : state → Prop) n items sched :
  (∀ t s s', P s → step body t s = Some s' → P s') →
  P (init n items) → P (final body n items sched).
Proof.
  intros Hstep. unfold final.
  assert (∀ s, P s → P (exec body sched s)) as Hexec.
  { induction sched as [|t sched' IH]; intros s Hs; [done|]. simpl.
    apply IH. destruct (step body t s) as [s'|] eqn:Hs'; [|done].
    by eapply Hstep. }
  assert (∀ fuel s, P s → P (settle body fuel s)) as Hsettle.
  { induction fuel as [|fuel IH]; intros s Hs; [done|]. simpl.
    destruct (next_state body s) as [s'|] eqn:Hnext; [|done].
    apply IH. apply first_step_Some in Hnext as [t Ht]. by eapply Hstep. }
  intros Hinit. by apply Hsettle, Hexec.
Qed.

Lemma final_alive n items sched :
  (∀ a e, a ∈ items → body a ≠ Raises e) → alive (final body n items sched).
Proof.
  intros Hsafe.
  apply (final_preserves (λ s, inv n items s ∧ alive s)).
  - intros t s s' [Hinv Halive] Hstep.
    split; [by eapply step_inv|by eapply step_alive].
  - split; [apply inv_init|]. intros _. constructor.
Qed.

Lemma final_stuck n items sched t :
  t ∈ seq 0 (S (length (workers (final body n items sched)))) →
  step body t (final body n items sched) = None.
Proof.
  intros Ht. eapply first_step_None; [|exact Ht].
  unfold final. by apply settle_stuck.
Qed.

(** Once the main thread is through, the shared list holds what the
    items produce, each once, and the body ran once on every item. *)
Lemma inv_returned n items s :
  inv n items s → pc s = [] →
  results s ≡ₚ items ≫= output ∧ calls s ≡ₚ items.
Proof.
  intros [k todo queued Hpc _ _ _ _ _|k i Hpc _ _ _ _ _ Hitems Hout] Hdone.
  - rewrite Hdone in Hpc. by destruct k, todo.
  - done.
Qed.

(** The pool always gets through when it has a worker (or nothing to
    do) and the body, [except] clause included, returns on every item. *)
Lemma run_returns n items sched :
  0 < n ∨ items = [] →
  (∀ a, a ∈ items → ∃ r, body a = Returns r) →
  ∃ l, run body n items sched = Returns l
       ∧ l ≡ₚ items ≫= output
       ∧ calls (final body n items sched) ≡ₚ items.
Proof.
  intros Hn Hbody. unfold run.
  pose proof (final_inv n items sched) as Hinv.
  assert (alive (final body n items sched)) as Halive.
  { apply final_alive. intros a e Ha. by destruct (Hbody a Ha) as [r ->]. }
  destruct (pc (final body n items sched)) as [|instr rest] eqn:Hpc.
  - destruct (inv_returned _ _ _ Hinv Hpc) as [Hres Hcalls]. by eexists.
  - destruct (inv_progress _ _ _ Hinv Halive Hn) as (t & Ht & [s' Hs']).
    + intros a Ha. by destruct (Hbody a Ha) as [r ->].
    + by rewrite Hpc.
    + by rewrite (final_stuck _ _ _ _ Ht) in Hs'.
Qed.

(** Without a worker nobody runs the body. *)
Lemma step_no_calls t s s' :
  (workers s = [] → calls s = []) → step body t s = Some s' →
  workers s' = [] → calls s' = [].
Proof.
  destruct s as [pc ws q u res cl]. destruct t as [|i]; simpl.
  - unfold step_main. simpl. intros Hs.
    destruct pc as [|[|x| |j] pc]; simpl; try done.
    + intros [= <-]. simpl. by destruct ws.
    + intros [= <-]. done.
    + case_decide; [|done]. intros [= <-]. done.
    + destruct (ws !! j) as [[]|]; try done. intros [= <-]. done.
  - unfold step_worker. simpl. intros _.
    destruct (ws !! i) as [w|] eqn:Hi; [|done].
    destruct (lookup_split _ _ _ Hi) as (pre & post & -> & _ & Hins).
    destruct w as [|a|r| | |]; [| | | | |done].
    + destruct q as [|x q]; [done|]. intros [= <-]. simpl. rewrite Hins.
      by destruct pre.
    + destruct (body a); [| |done]; intros [= <-]; simpl; rewrite Hins;
        by destruct pre.
    + intros [= <-]. simpl. rewrite Hins. by destruct pre.
    + destruct u; intros [= <-]; simpl; rewrite Hins; by destruct pre.
    + intros [= <-]. simpl. rewrite Hins. by destruct pre.
Qed.

Lemma final_no_calls n items sched :
  workers (final body n items sched) = [] →
  calls (final body n items sched) = [].
Proof.
  unfold final.
  assert (∀ s, (workers s = [] → calls s = []) →
               workers (exec body sched s) = [] → calls (exec body sched s) = [])
    as Hexec.
  { induction sched as [|t sched IH]; intros s Hs; [done|]. simpl.
    apply IH. destruct (step body t s) as [s'|] eqn:Hstep; [|done].
    by eapply step_no_calls. }
  assert (∀ fuel s, (workers s = [] → calls s = []) →
                    workers (settle body fuel s) = []
                    → calls (settle body fuel s) = []) as Hsettle.
  { induction fuel as [|fuel IH]; intros s Hs; [done|]. simpl.
    destruct (next_state body s) as [s'|] eqn:Hnext; [|done].
    apply IH. apply first_step_Some in Hnext as [t Ht].
    by eapply step_no_calls. }
  apply Hsettle, Hexec. done.
Qed.

(** With no thread and something to do, [q.join()] never returns. *)
Lemma run_blocks n items sched :
  n = 0 → items ≠ [] → run body n items sched = Blocks.
Proof.
  intros -> Hitems. unfold run.
  pose proof (final_inv 0 items sched) as Hinv.
  destruct (pc (final body 0 items sched)) as [|instr rest] eqn:Hpc; [|done].
  destruct (inv_returned _ _ _ Hinv Hpc) as [_ Hcalls].
  destruct Hinv as [k todo queued Hpc' _ _ _ _ _|k i _ _ Hlen _ _ _ _ _].
  - rewrite Hpc in Hpc'. by destruct k, todo.
  - apply length_zero_iff_nil, final_no_calls in Hlen.
    rewrite Hlen in Hcalls. by apply Permutation_nil_l in Hcalls.
Qed.

End PoolFacts.
End PoolFacts.

(** ** [find_valid_emails] *)




Section FinderFacts.
Context {U : UnicodeData} (self : Scout) (net : network).

Lemma probe_body_never_blocks email : probe_body self net email ≠ Blocks.
Proof.
  unfold probe_body. pose proof (check_smtp_never_blocks self net email).
  by destruct (check_smtp self net email).
Qed.

Lemma probe_output email :
  Pool.output (probe_body self net) email
  = if decide (check_smtp self net email = Returns true) then [email] else [].
Proof.
  unfold Pool.output, probe_body.
  destruct (check_smtp self net email) as [[]| |]; simpl; try case_decide; done.
Qed.

(** The [except] clause of the worker, run on [e]. *)
Lemma worker_handler {A} domain subject e :
  (print (stdout net) (error_processing net domain subject e);; Returns None)
  = if can_print (stdout net) domain
       && can_print (stdout net) (exn_text net subject e)
    then Returns (@None A) else Raises UnicodeEncodeError.
Proof.
  rewrite <-error_processing_printable. unfold print.
  by destruct (can_print _ _).
Qed.

(** The [except] clause adds nothing to what the [try] block appends. *)
Lemma probe_turn_output domain email :
  Pool.output (probe_turn self net domain) email
  = Pool.output (probe_body self net) email.
Proof.
  unfold Pool.output, probe_turn.
  destruct (probe_body self net email) as [r|e|]; simpl; [done| |done].
  rewrite worker_handler. by destruct (_ && _).
Qed.

Lemma probe_turn_deliverable domain emails :
  emails ≫= Pool.output (probe_turn self net domain) = deliverable self net emails.
Proof.
  unfold deliverable. induction emails as [|e emails IH]; [done|].
  by rewrite !bind_cons, IH, probe_turn_output.
Qed.

(** The worker survives every address when the standard output can
    print the domain: what [check_smtp] raises has an ASCII text. *)
Lemma probe_turn_returns domain email :
  can_print (stdout net) domain = true →
  ∃ r, probe_turn self net domain email = Returns r.
Proof.
  intros Hdomain. unfold probe_turn, probe_body.
  pose proof (check_smtp_never_blocks self net email) as Hb.
  destruct (check_smtp self net email) as [ok|e|] eqn:Hprobe; simpl;
    [by eauto| |done].
  rewrite worker_handler, Hdomain. simpl.
  rewrite exn_text_printable; [by eauto|].
  by destruct (check_smtp_raises_only _ _ _ _ Hprobe) as [-> | ->].
Qed.

(** The scheduling stage on its own: what [find_valid_emails] does
    after the catch-all check. *)
Lemma schedule_probes_returns log sched domain names emails :
  (1 ≤ num_threads self)%Z →
  can_print (stdout net) domain = true →
  all_emails self domain names = Returns emails →
  ∃ v, (schedule_probes self net log sched domain names).1 = Returns v
       ∧ v ≡ₚ deliverable self net emails.
Proof.
  intros Hn Hdomain Hemails. unfold schedule_probes. rewrite Hemails. simpl.
  destruct (PoolFacts.run_returns (probe_turn self net domain)
              (Z.to_nat (num_threads self)) emails sched) as (v & Hv & Hperm & _).
  - left. lia.
  - intros a _. by apply probe_turn_returns.
  - exists v. split; [done|]. by rewrite Hperm, probe_turn_deliverable.
Qed.

Lemma schedule_probes_raises log sched domain names e :
  all_emails self domain names = Raises e →
  (schedule_probes self net log sched domain names).1 = Raises e.
Proof. intros He. unfold schedule_probes. by rewrite He. Qed.

Lemma all_emails_never_blocks domain names : all_emails self domain names ≠ Blocks.
Proof.
  assert (∀ names nz, generate_email_variants names domain nz ≠ Blocks) as Hgen.
  { intros ns nz. unfold generate_email_variants.
    generalize (add_combinations (if nz then normalize_name <$> ns else ns) ∅).
    generalize (if nz then normalize_name <$> ns else ns) as l.
    induction l as [|[|c name] l IH]; intros vs; simpl; try done. }
  assert (∀ lists acc, extend_variants self domain acc lists ≠ Blocks) as Hext.
  { induction lists as [|nl lists IH]; intros acc; simpl; [done|].
    specialize (Hgen (split_list_data nl) (normalize self)).
    destruct (generate_email_variants _ _ _) as [vs| |]; simpl; done. }
  unfold all_emails, variant_stage.
  destruct (check_variants self && truthy names); simpl; [|done].
  destruct names as [|s|l|first rest]; simpl; try done.
  - specialize (Hgen (split_list_data (split SPACE s)) (normalize self)).
    by destruct (generate_email_variants _ _ _).
  - specialize (Hgen (split_list_data l) (normalize self)).
    by destruct (generate_email_variants _ _ _).
  - specialize (Hgen (split_list_data first) (normalize self)).
    destruct (generate_email_variants _ _ _) as [vs| |]; simpl; try done.
    specialize (Hext rest ([] ++ vs)).
    by destruct (extend_variants _ _ _ _).
Qed.

Lemma add_individual_raises names vs e :
  add_individual names vs = Raises e → e = IndexError.
Proof.
  revert vs. induction names as [|[|c name] names IH]; intros vs; simpl.
  - done.
  - by intros [= <-].
  - apply IH.
Qed.

Lemma generate_email_variants_raises names domain nz e :
  generate_email_variants names domain nz = Raises e → e = IndexError.
Proof.
  unfold generate_email_variants.
  destruct (add_individual _ _) as [X|e'|] eqn:HX; simpl; try done.
  intros [= <-]. by eapply add_individual_raises.
Qed.

Lemma extend_variants_raises domain acc lists e :
  extend_variants self domain acc lists = Raises e → e = IndexError.
Proof.
  revert acc. induction lists as [|nl lists IH]; intros acc; simpl; [done|].
  destruct (generate_email_variants _ _ _) as [vs|e'|] eqn:Hvs; simpl; try done.
  - apply IH.
  - intros [= <-]. by eapply generate_email_variants_raises.
Qed.

Lemma all_emails_raises domain names e :
  all_emails self domain names = Raises e →
  e = IndexError ∧ check_variants self = true ∧ truthy names = true.
Proof.
  unfold all_emails, variant_stage.
  destruct (check_variants self); simpl; [|done].
  destruct (truthy names); simpl; [|done].
  intros He. split; [|done].
  destruct names as [|s|l|first rest]; simpl in He; try done.
  - destruct (generate_email_variants _ _ _) as [vs|e'|] eqn:Hvs;
      simplify_eq/=. by eapply generate_email_variants_raises.
  - destruct (generate_email_variants _ _ _) as [vs|e'|] eqn:Hvs;
      simplify_eq/=. by eapply generate_email_variants_raises.
  - destruct (generate_email_variants _ _ _) as [vs|e'|] eqn:Hvs; simpl in He.
    + destruct (extend_variants _ _ _ _) as [vs'|e'|] eqn:Hext; simplify_eq/=.
      by eapply extend_variants_raises.
    + simplify_eq. by eapply generate_email_variants_raises.
    + done.
Qed.

Lemma schedule_probes_raises_only log sched domain names e :
  (schedule_probes self net log sched domain names).1 = Raises e → e = IndexError.
Proof.
  unfold schedule_probes.
  destruct (all_emails self domain names) as [emails|e'|] eqn:Hemails; simpl.
  - unfold Pool.run. by destruct (Pool.pc _).
  - intros [= <-]. by destruct (all_emails_raises _ _ _ Hemails).
  - done.
Qed.

(** What leaves [find_valid_emails]: the [IndexError] of the candidate
    generation, or the [UnicodeEncodeError] of the catch-all probe. *)
Lemma find_valid_emails_exceptions draws sched domain names e :
  (find_valid_emails self net draws sched domain names).1 = Raises e →
  e = IndexError ∨ e = UnicodeEncodeError.
Proof.
  unfold find_valid_emails.
  destruct (check_catchall self);
    [|intros ->%schedule_probes_raises_only; by left].
  unfold check_email_catchall.
  destruct (check_smtp self net (random_email draws domain)) as [[]|e'|] eqn:Hprobe;
    simpl; [done| | |done].
  - intros ->%schedule_probes_raises_only. by left.
  - intros [= <-]. by eapply check_smtp_raises_only.
Qed.

Lemma find_valid_emails_never_blocks draws sched domain names :
  (1 ≤ num_threads self)%Z →
  can_print (stdout net) domain = true →
  (find_valid_emails self net draws sched domain names).1 ≠ Blocks.
Proof.
  intros Hn Hdomain.
  assert (∀ log, (schedule_probes self net log sched domain names).1 ≠ Blocks)
    as Hsched.
  { intros log. destruct (all_emails self domain names) as [emails|e|] eqn:He.
    - destruct (schedule_probes_returns log sched _ _ _ Hn Hdomain He)
        as (v & -> & _).
      done.
    - by rewrite (schedule_probes_raises _ _ _ _ _ He).
    - by destruct (all_emails_never_blocks domain names). }
  unfold find_valid_emails. destruct (check_catchall self); [|apply Hsched].
  unfold check_email_catchall.
  pose proof (check_smtp_never_blocks self net (random_email draws domain)).
  destruct (check_smtp _ _ _) as [[]| |]; simpl; done.
Qed.

End FinderFacts.

(** C1.  With the catch-all check enabled, on a domain the check judges
    catch-all [find_valid_emails] returns the empty list, and the only
    address it ever handed to [check_smtp] is the random one. *)
Theorem find_valid_emails_catchall
    {U : UnicodeData} (self : Scout) (net : network) (draws : nat → nat)
    (sched : list nat) (domain : str) (names : names_arg) :
  check_catchall self = true →
  check_email_catchall self net draws domain = Returns true →
  find_valid_emails self net draws sched domain names
  = (Returns [], [random_email draws domain]).
Proof. intros Hflag Hcatch. unfold find_valid_emails. by rewrite Hflag, Hcatch. Qed.

Lemma find_valid_emails_catchall_witness :
  find_valid_emails default_scout catchall_network (λ k, k) [1; 0; 2]
    (lit "example.com") (NamesStr (lit "John Smith"))
  = (Returns [], [lit "abcdefghijfalan@example.com"]).
Proof.
  apply (find_valid_emails_catchall default_scout catchall_network (λ k, k)
           [1; 0; 2] (lit "example.com") (NamesStr (lit "John Smith")));
    vm_compute; reflexivity.
Defined.


Lemma same_result_trans_sym o1 o2 o :
  same_result o1 o → same_result o2 o → same_result o1 o2.
Proof.
  destruct o1, o2, o; simpl; try done.
  - intros -> ->. done.
  - congruence.
Qed.

Section PoolSize.
Context {U : UnicodeData} (self : Scout) (net : network).

(** Whatever the schedule, a pool of at least one thread returns what a
    sequential run returns. *)
Lemma find_valid_emails_sequential draws sched domain names :
  (1 ≤ num_threads self)%Z →
  can_print (stdout net) domain = true →
  same_result (find_valid_emails self net draws sched domain names).1
              (sequential_result self net draws domain names).
Proof.
  intros Hn Hdomain.
  assert (∀ log, same_result
                   (schedule_probes self net log sched domain names).1
                   (emails ← all_emails self domain names;
                    Returns (deliverable self net emails))) as Hsched.
  { intros log. destruct (all_emails self domain names) as [emails|e|] eqn:He.
    - destruct (schedule_probes_returns self net log sched _ _ _ Hn Hdomain He)
        as (v & -> & Hv). done.
    - by rewrite (schedule_probes_raises _ _ _ _ _ _ _ He).
    - by destruct (all_emails_never_blocks self domain names). }
  unfold find_valid_emails, sequential_result.
  destruct (check_catchall self); [|apply Hsched].
  pose proof (check_smtp_never_blocks self net (random_email draws domain)) as Hb.
  unfold check_email_catchall in *.
  destruct (check_smtp _ _ _) as [[]| |]; simpl; done.
Qed.

(** With no thread and a candidate to probe the call never returns. *)
Lemma schedule_probes_blocks log sched domain names email emails :
  (num_threads self ≤ 0)%Z →
  all_emails self domain names = Returns (email :: emails) →
  (schedule_probes self net log sched domain names).1 = Blocks.
Proof.
  intros Hn He. unfold schedule_probes. rewrite He. simpl.
  apply PoolFacts.run_blocks; [lia|done].
Qed.

End PoolSize.

(** C6, amended.  For any two pool sizes of at least one thread, any two
    schedules of the threads, and a domain the standard output can print,
    [find_valid_emails] ends the same way on the same input with the same
    probe: both calls return, with the same addresses the same number of
    times, or both raise the same exception.  The same holds of the pool
    alone on any two orderings of one candidate set.  (A domain the
    standard output cannot print makes the [print] of the worker's
    [except] clause raise: the worker is lost, see
    [find_valid_emails_worker_dies].) *)
Theorem find_valid_emails_pool_size_independent
    {U : UnicodeData} (self : Scout) (net : network) (draws : nat → nat)
    (domain : str) (names : names_arg) (n1 n2 : Z) (sched1 sched2 : list nat) :
  (1 ≤ n1)%Z → (1 ≤ n2)%Z →
  can_print (stdout net) domain = true →
  same_result
    (find_valid_emails (with_threads self n1) net draws sched1 domain names).1
    (find_valid_emails (with_threads self n2) net draws sched2 domain names).1
  ∧ ∀ emails1 emails2,
      emails1 ≡ₚ emails2 →
      ∃ v1 v2,
        Pool.run (probe_turn self net domain) (Z.to_nat n1) emails1 sched1
        = Returns v1
        ∧ Pool.run (probe_turn self net domain) (Z.to_nat n2) emails2 sched2
          = Returns v2
        ∧ v1 ≡ₚ v2
        ∧ v1 ≡ₚ deliverable self net emails1.
Proof.
  intros H1 H2 Hdomain. split.
  - apply (same_result_trans_sym _ _ (sequential_result self net draws domain names)).
    + apply (find_valid_emails_sequential (with_threads self n1)); done.
    + apply (find_valid_emails_sequential (with_threads self n2)); done.
  - intros emails1 emails2 Hperm.
    destruct (PoolFacts.run_returns (probe_turn self net domain)
                (Z.to_nat n1) emails1 sched1)
      as (v1 & Hv1 & Hp1 & _);
      [left; lia | intros a _; by apply probe_turn_returns |].
    destruct (PoolFacts.run_returns (probe_turn self net domain)
                (Z.to_nat n2) emails2 sched2)
      as (v2 & Hv2 & Hp2 & _);
      [left; lia | intros a _; by apply probe_turn_returns |].
    exists v1, v2. split; [done|]. split; [done|].
    split; [by rewrite Hp1, Hp2, Hperm|].
    by rewrite Hp1, probe_turn_deliverable.
Qed.

Lemma find_valid_emails_pool_size_independent_witness :
  same_result
    (find_valid_emails (with_threads default_scout 1)
       (selective_network [lit "john@example.com"; lit "j@example.com"])
       (λ _, 7) [] (lit "example.com") (NamesStr (lit "John Smith"))).1
    (find_valid_emails (with_threads default_scout 10)
       (selective_network [lit "john@example.com"; lit "j@example.com"])
       (λ _, 7) [0; 0; 0; 0; 0; 0; 0; 0; 0; 0; 0; 0; 0; 0; 0; 0; 0; 0;
                 1; 2; 3; 4; 5; 5; 5; 4; 4]
       (lit "example.com") (NamesStr (lit "John Smith"))).1.
Proof.
  exact (proj1 (find_valid_emails_pool_size_independent default_scout
                  (selective_network [lit "john@example.com"; lit "j@example.com"])
                  (λ _, 7) (lit "example.com") (NamesStr (lit "John Smith")) 1 10
                  [] [0; 0; 0; 0; 0; 0; 0; 0; 0; 0; 0; 0; 0; 0; 0; 0; 0; 0;
                      1; 2; 3; 4; 5; 5; 5; 4; 4]
                  ltac:(lia) ltac:(lia) eq_refl)).
Defined.

(** The two runs of the witness really differ in order. *)
Example pool_order_differs :
  (find_valid_emails (with_threads default_scout 1)
     (selective_network [lit "john@example.com"; lit "j@example.com"])
     (λ _, 7) [] (lit "example.com") (NamesStr (lit "John Smith"))).1
  = Returns [lit "john@example.com"; lit "j@example.com"]
  ∧ (find_valid_emails (with_threads default_scout 10)
       (selective_network [lit "john@example.com"; lit "j@example.com"])
       (λ _, 7) [0; 0; 0; 0; 0; 0; 0; 0; 0; 0; 0; 0; 0; 0; 0; 0; 0; 0;
                 1; 2; 3; 4; 5; 5; 5; 4; 4]
       (lit "example.com") (NamesStr (lit "John Smith"))).1
    = Returns [lit "j@example.com"; lit "john@example.com"].
Proof. split; vm_compute; reflexivity. Qed.

(** C6, as stated, fails for a pool of size 0: nobody takes the candidates
    off the queue and [q.join()] never returns, where a pool of size 1
    returns. *)
Lemma find_valid_emails_without_threads :
  (find_valid_emails (with_threads default_scout 0) dead_network (λ _, 0) []
     (lit "example.com") NamesNone).1 = Blocks
  ∧ (find_valid_emails (with_threads default_scout 1) dead_network (λ _, 0) []
       (lit "example.com") NamesNone).1 = Returns []
  ∧ ¬ same_result
        (find_valid_emails (with_threads default_scout 0) dead_network (λ _, 0) []
           (lit "example.com") NamesNone).1
        (find_valid_emails (with_threads default_scout 1) dead_network (λ _, 0) []
           (lit "example.com") NamesNone).1.
Proof.
  assert ((find_valid_emails (with_threads default_scout 0) dead_network (λ _, 0) []
             (lit "example.com") NamesNone).1 = Blocks) as H0
    by (vm_compute; reflexivity).
  assert ((find_valid_emails (with_threads default_scout 1) dead_network (λ _, 0) []
             (lit "example.com") NamesNone).1 = Returns []) as H1
    by (vm_compute; reflexivity).
  split; [exact H0|]. split; [exact H1|]. rewrite H0, H1. exact (λ H, H).
Qed.

(** Why C6 asks for a domain the standard output can print.  On a domain
    that begins with a lone surrogate every probe ends in the [except]
    clause of [check_smtp], whose [print] raises; the [except] clause of
    the worker prints the domain and raises in its turn, and the thread
    is gone after its first candidate.  One thread leaves the second
    candidate on the queue and [q.join()] never returns; two threads
    take one candidate each and the call returns. *)
Example find_valid_emails_worker_dies :
  all_emails (without_catchall default_scout) surrogate_domain (NamesStr (lit "John"))
  = Returns (address surrogate_domain <$> [lit "john"; lit "j"])
  ∧ probe_turn default_scout dead_network surrogate_domain
      (address surrogate_domain (lit "john")) = Raises UnicodeEncodeError
  ∧ (find_valid_emails (with_threads (without_catchall default_scout) 1)
       dead_network (λ _, 0) [] surrogate_domain (NamesStr (lit "John"))).1
    = Blocks
  ∧ (find_valid_emails (with_threads (without_catchall default_scout) 2)
       dead_network (λ _, 0) [] surrogate_domain (NamesStr (lit "John"))).1
    = Returns [].
Proof. repeat split; vm_compute; reflexivity. Qed.

(** ** [find_valid_emails_bulk] *)

Lemma email_data_clean_elem_of email_data job :
  job ∈ email_data_clean email_data ↔ job ∈ email_data.
Proof.
  induction email_data as [|i rest IH]; simpl; [done|].
  case_decide as Hin; rewrite ?elem_of_cons, IH; [|done].
  split; [by right|]. by intros [->|?].
Qed.

Lemma email_data_clean_NoDup email_data : NoDup (email_data_clean email_data).
Proof.
  induction email_data as [|i rest IH]; simpl; [by constructor|].
  case_decide as Hin; [done|]. constructor; [|done].
  by rewrite email_data_clean_elem_of.
Qed.

Section BulkFacts.
Context {U : UnicodeData} (self : Scout) (net : network).
Context (draws_of : bulk_job → nat → nat) (sched_of : bulk_job → list nat).


Lemma job_body_output data :
  Pool.output (job_body self net draws_of sched_of) data
= job_entries self net draws_of sched_of data.
Proof.
  unfold Pool.output, job_body, job_entries.
  by destruct (find_valid_emails _ _ _ _ _ _).1.
Qed.

Lemma job_turn_output data :
  Pool.output (job_turn self net draws_of sched_of) data
  = job_entries self net draws_of sched_of data.
Proof.
  rewrite <-job_body_output. unfold Pool.output, job_turn.
  destruct (job_body self net draws_of sched_of data) as [r|e|]; simpl;
    [done| |done].
  rewrite worker_handler. by destruct (_ && _).
Qed.

Lemma job_body_never_blocks data :
  (1 ≤ num_threads self)%Z →
  can_print (stdout net) (job_domain data) = true →
  job_body self net draws_of sched_of data ≠ Blocks.
Proof.
  intros Hn Hdomain. unfold job_body.
  pose proof (find_valid_emails_never_blocks self net (draws_of data)
                (sched_of data) (job_domain data)
                (default (NamesList []) (job_names data)) Hn Hdomain) as Hb.
  by destruct (find_valid_emails _ _ _ _ _ _).1.
Qed.

Lemma job_body_raises_only data e :
  job_body self net draws_of sched_of data = Raises e →
  e = IndexError ∨ e = UnicodeEncodeError.
Proof.
  unfold job_body.
  destruct (find_valid_emails _ _ _ _ _ _).1 as [v|e'|] eqn:Hv; simpl; [done| |done].
  intros [= <-]. by eapply find_valid_emails_exceptions.
Qed.

(** The worker of the bulk pool survives every job when the standard
    output can print the job's domain. *)
Lemma job_turn_returns data :
  (1 ≤ num_threads self)%Z →
  can_print (stdout net) (job_domain data) = true →
  ∃ r, job_turn self net draws_of sched_of data = Returns r.
Proof.
  intros Hn Hdomain. unfold job_turn.
  pose proof (job_body_never_blocks data Hn Hdomain) as Hb.
  destruct (job_body self net draws_of sched_of data) as [r|e|] eqn:Hjob; simpl;
    [by eauto| |done].
  rewrite worker_handler, Hdomain. simpl.
  rewrite exn_text_printable; [by eauto|].
  by destruct (job_body_raises_only _ _ Hjob) as [-> | ->].
Qed.

End BulkFacts.

(** C7, amended.  [find_valid_emails_bulk] keeps one copy of each distinct
    job and runs [find_valid_emails] once on it; when the standard output
    can print the domains of the jobs, the result list has exactly one
    entry for each distinct job whose run returns, and none for a job
    whose run raises.  (A domain the standard output cannot print makes
    the [print] of an [except] clause raise and a worker is lost, see
    [find_valid_emails_bulk_worker_dies].) *)
Theorem find_valid_emails_bulk_entries
    {U : UnicodeData} (self : Scout) (net : network)
    (draws_of : bulk_job → nat → nat) (sched_of : bulk_job → list nat)
    (sched : list nat) (email_data : list bulk_job) :
  (1 ≤ num_bulk_threads self)%Z →
  (1 ≤ num_threads self)%Z →
  Forall (λ job, can_print (stdout net) (job_domain job) = true) email_data →
  NoDup (email_data_clean email_data)
  ∧ (∀ job, job ∈ email_data_clean email_data ↔ job ∈ email_data)
  ∧ ∃ results,
      find_valid_emails_bulk self net draws_of sched_of sched email_data
      = Returns results
      ∧ results ≡ₚ
          email_data_clean email_data ≫= job_entries self net draws_of sched_of
      ∧ length results
        = length (filter (λ job, length (job_entries self net draws_of sched_of job) = 1)
                    (email_data_clean email_data)).
Proof.
  intros Hbulk Hn Hdomains.
  split; [apply email_data_clean_NoDup|].
  split; [apply email_data_clean_elem_of|].
  unfold find_valid_emails_bulk.
  destruct (PoolFacts.run_returns (job_turn self net draws_of sched_of)
              (Z.to_nat (num_bulk_threads self)) (email_data_clean email_data) sched)
    as (results & Hrun & Hperm & _).
  - left. lia.
  - intros job Hjob. apply (proj1 (email_data_clean_elem_of _ _)) in Hjob.
    apply job_turn_returns; [done|].
    rewrite Forall_forall in Hdomains. by apply Hdomains.
  - exists results. split; [done|].
    assert (results ≡ₚ
              email_data_clean email_data ≫= job_entries self net draws_of sched_of)
      as Hres.
    { rewrite Hperm. generalize (email_data_clean email_data) as jobs.
      induction jobs as [|job jobs IH]; [done|].
      by rewrite !bind_cons, IH, job_turn_output. }
    split; [done|]. rewrite Hres.
    generalize (email_data_clean email_data) as jobs.
    induction jobs as [|job jobs IH]; [done|].
    rewrite bind_cons, length_app, IH, filter_cons.
    assert (length (job_entries self net draws_of sched_of job) = 0
            ∨ length (job_entries self net draws_of sched_of job) = 1) as [Hl|Hl].
    { unfold job_entries. destruct (find_valid_emails _ _ _ _ _ _).1; auto. }
    all: rewrite Hl; case_decide; simpl; lia.
Qed.

Lemma find_valid_emails_bulk_entries_witness :
  let john := {| job_domain := lit "example.com";
                 job_names := Some (NamesList [lit "John"]) |} in
  let none := {| job_domain := lit "example.org"; job_names := None |} in
  let net := selective_network [lit "john@example.com"] in
  NoDup (email_data_clean [john; none; john])
  ∧ (∀ job, job ∈ email_data_clean [john; none; john] ↔ job ∈ [john; none; john])
  ∧ ∃ results,
      find_valid_emails_bulk default_scout net (λ _ _, 0) (λ _, []) []
        [john; none; john] = Returns results
      ∧ results ≡ₚ
          email_data_clean [john; none; john]
            ≫= job_entries default_scout net (λ _ _, 0) (λ _, [])
      ∧ length results
        = length (filter (λ job, length (job_entries default_scout net (λ _ _, 0)
                                            (λ _, []) job) = 1)
                    (email_data_clean [john; none; john])).
Proof.
  intros john none net.
  apply (find_valid_emails_bulk_entries default_scout net (λ _ _, 0) (λ _, []) []
           [john; none; john]); [simpl; lia..|].
  repeat constructor.
Defined.

(** The repository's own kind of bulk input, run through the model. *)
Example bulk_two_identical_jobs :
  let john := {| job_domain := lit "example.com";
                 job_names := Some (NamesList [lit "John"]) |} in
  find_valid_emails_bulk default_scout
    (selective_network [lit "john@example.com"]) (λ _ _, 0) (λ _, []) [] [john; john]
  = Returns [{| res_domain := lit "example.com";
                res_names := NamesList [lit "John"];
                res_valid_emails := [lit "john@example.com"] |}].
Proof. vm_compute. reflexivity. Qed.

(** Jobs are compared as dictionaries: a job without the key ["names"] and
    a job with an empty list of names are both kept, and leave two entries
    with the same domain and the same names. *)
Example bulk_missing_names_key :
  let bare := {| job_domain := lit "example.com"; job_names := None |} in
  let empty := {| job_domain := lit "example.com"; job_names := Some (NamesList []) |} in
  find_valid_emails_bulk default_scout
    (selective_network [lit "info@example.com"]) (λ _ _, 0) (λ _, []) [] [bare; empty]
  = Returns [{| res_domain := lit "example.com"; res_names := NamesList [];
                res_valid_emails := [lit "info@example.com"] |};
             {| res_domain := lit "example.com"; res_names := NamesList [];
                res_valid_emails := [lit "info@example.com"] |}].
Proof. vm_compute. reflexivity. Qed.

(** C7, as stated, fails on a job whose names hold a doubled space:
    [generate_email_variants] raises, the worker of the bulk pool prints
    the error and goes on, and the one distinct job has no entry. *)
Lemma find_valid_emails_bulk_skips_failing_job :
  let job := {| job_domain := lit "example.com";
                job_names := Some (NamesList [lit "john  smith"]) |} in
  find_valid_emails_bulk default_scout dead_network (λ _ _, 0) (λ _, []) [] [job]
  = Returns []
  ∧ length (email_data_clean [job]) = 1
  ∧ (find_valid_emails default_scout dead_network (λ _, 0) []
       (lit "example.com") (NamesList [lit "john  smith"])).1 = Raises IndexError.
Proof. repeat split; vm_compute; reflexivity. Qed.

(** Why C7 asks for domains the standard output can print.  The catch-all
    probe of a domain that begins with a lone surrogate ends in the
    [except] clause of [check_smtp], whose [print] raises; the exception
    leaves [find_valid_emails], the [except] clause of the bulk worker
    prints the domain and raises in its turn, and the thread is gone.
    With one bulk thread the second job stays on the queue and
    [q.join()] never returns. *)
Example find_valid_emails_bulk_worker_dies :
  let lost := {| job_domain := surrogate_domain; job_names := None |} in
  let fine := {| job_domain := lit "example.com"; job_names := None |} in
  (find_valid_emails default_scout dead_network (λ _, 0) [] surrogate_domain
     (NamesList [])).1 = Raises UnicodeEncodeError
  ∧ job_turn default_scout dead_network (λ _ _, 0) (λ _, []) lost
    = Raises UnicodeEncodeError
  ∧ find_valid_emails_bulk default_scout dead_network (λ _ _, 0) (λ _, []) []
      [lost; fine] = Blocks
  ∧ find_valid_emails_bulk default_scout dead_network (λ _ _, 0) (λ _, []) []
      [fine] = Returns [{| res_domain := lit "example.com"; res_names := NamesList [];
                           res_valid_emails := [] |}].
Proof. repeat split; vm_compute; reflexivity. Qed.

(** * Further properties *)

(** ** More on strings and on [split_list_data] *)

Lemma split_pieces sep s : Forall (λ t, sep ∉ t) (split sep s).
Proof.
  induction s as [|c s IH]; simpl.
  - constructor; [apply not_elem_of_nil|constructor].
  - case_decide as Hc.
    + constructor; [apply not_elem_of_nil|done].
    + destruct (split sep s) as [|w ws].
      * constructor; [|constructor]. rewrite elem_of_cons, elem_of_nil. naive_solver.
      * apply Forall_cons in IH as [Hw Hws]. constructor; [|done].
        rewrite elem_of_cons. naive_solver.
Qed.

Lemma join_split sep s : join [sep] (split sep s) = s.
Proof.
  induction s as [|c s IH]; simpl; [done|].
  case_decide as Hc.
  - subst c. destruct (split_cons sep s) as (w & ws & Hs). rewrite Hs in *.
    simpl in *. by rewrite IH.
  - destruct (split_cons sep s) as (w & ws & Hs). rewrite Hs in *.
    destruct ws; simpl in *; by rewrite <-IH.
Qed.

Lemma split_app_sep sep l d : sep ∉ l → split sep (l ++ sep :: d) = l :: split sep d.
Proof.
  induction l as [|c l IH]; intros Hl; simpl.
  - by rewrite decide_True.
  - apply not_elem_of_cons in Hl as [Hc Hl]. rewrite decide_False by done.
    by rewrite IH.
Qed.

Lemma split_list_data_pieces target : Forall (λ t, SPACE ∉ t) (split_list_data target).
Proof.
  unfold split_list_data. induction target as [|i target IH]; [constructor|].
  rewrite bind_cons. apply Forall_app. split; [apply split_pieces|done].
Qed.

Lemma split_list_data_id target :
  Forall (λ t, SPACE ∉ t) target → split_list_data target = target.
Proof.
  unfold split_list_data. induction 1 as [|i target Hi _ IH]; [done|].
  by rewrite bind_cons, IH, split_without.
Qed.

Lemma split_list_data_length target : length target ≤ length (split_list_data target).
Proof.
  unfold split_list_data. induction target as [|i target IH]; [done|].
  rewrite bind_cons, length_app. destruct (split_cons SPACE i) as (w & ws & ->).
  simpl. lia.
Qed.

(** X1.  [split_list_data] cuts every name at its spaces: no token of the
    result holds a space, a list of names without spaces comes back as it
    is, the result is never shorter than the input, and joining the tokens
    of one name with spaces gives the name back. *)
Theorem split_list_data_tokens (target : list str) (name : str) :
  Forall (λ t, SPACE ∉ t) (split_list_data target)
  ∧ (Forall (λ t, SPACE ∉ t) target → split_list_data target = target)
  ∧ length target ≤ length (split_list_data target)
  ∧ join [SPACE] (split_list_data [name]) = name.
Proof.
  split; [apply split_list_data_pieces|].
  split; [apply split_list_data_id|].
  split; [apply split_list_data_length|].
  unfold split_list_data. rewrite bind_cons. simpl. rewrite app_nil_r.
  apply join_split.
Qed.

Lemma split_list_data_tokens_witness :
  split_list_data [lit "john"; lit "smith"] = [lit "john"; lit "smith"].
Proof.
  apply (split_list_data_tokens [lit "john"; lit "smith"] []).
  repeat constructor; vm_compute; intros H;
    repeat (inversion H as [|? ? ? H']; clear H; rename H' into H).
Defined.

(** X2.  A non-empty string of names is treated exactly as the one-element
    list that holds it: both are cut at the spaces before the variants are
    generated. *)
Theorem all_emails_str_as_list
    {U : UnicodeData} (self : Scout) (domain s : str) :
  s ≠ [] →
  all_emails self domain (NamesStr s) = all_emails self domain (NamesList [s]).
Proof.
  intros Hs. unfold all_emails, variant_stage. simpl.
  rewrite !bool_decide_true by done.
  destruct (check_variants self); simpl.
  - rewrite (split_list_data_id (split SPACE s)) by apply split_pieces.
    rewrite ?app_nil_r. done.
  - rewrite !bool_decide_true by done. done.
Qed.

Lemma all_emails_str_as_list_witness :
  all_emails default_scout (lit "example.com") (NamesStr (lit "John Smith"))
  = all_emails default_scout (lit "example.com") (NamesList [lit "John Smith"]).
Proof.
  apply (all_emails_str_as_list default_scout (lit "example.com") (lit "John Smith")).
  discriminate.
Defined.

(** ** The address the probe looks up *)

(** X3.  For a candidate [local@domain] with no ['@'] in the local part or
    in the domain, [check_smtp] looks up the MX records of [domain] itself,
    and answers [True] exactly when that exchange accepts the candidate
    with code 250. *)
Theorem check_smtp_candidate (self : Scout) (net : network) (domain local : str) :
  AT ∉ local → AT ∉ domain →
  split AT (address domain local) !! 1 = Some domain
  ∧ (check_smtp self net (address domain local) = Returns true ↔
     ∃ mx others server hello sender,
       resolve_mx net domain = Some (mx :: others)
       ∧ smtp_connect net mx 25%Z (smtp_timeout self) = Some server
       ∧ smtp_ehlo server (lit "example.com") = Some hello
       ∧ smtp_mail server (lit "test@example.com") = Some sender
       ∧ smtp_rcpt server (address domain local) = Some 250%Z
       ∧ smtp_exit server = Some ()).
Proof.
  intros Hl Hd.
  assert (split AT (address domain local) !! 1 = Some domain) as Hsplit.
  { unfold address. by rewrite split_app_sep, (split_without AT domain). }
  split; [done|].
  rewrite (check_smtp_true _ _ _ _ Hsplit). apply smtp_dialogue_true.
Qed.

Lemma check_smtp_candidate_witness :
  split AT (address (lit "example.com") (lit "john.smith")) !! 1
  = Some (lit "example.com")
  ∧ (check_smtp default_scout catchall_network
       (address (lit "example.com") (lit "john.smith")) = Returns true ↔
     ∃ mx others server hello sender,
       resolve_mx catchall_network (lit "example.com") = Some (mx :: others)
       ∧ smtp_connect catchall_network mx 25%Z (smtp_timeout default_scout)
         = Some server
       ∧ smtp_ehlo server (lit "example.com") = Some hello
       ∧ smtp_mail server (lit "test@example.com") = Some sender
       ∧ smtp_rcpt server (address (lit "example.com") (lit "john.smith"))
         = Some 250%Z
       ∧ smtp_exit server = Some ()).
Proof.
  apply (check_smtp_candidate default_scout catchall_network
           (lit "example.com") (lit "john.smith"));
    vm_compute; intros H;
    repeat (inversion H as [|? ? ? H']; clear H; rename H' into H).
Defined.

(** An address whose local part holds an ['@'] is looked up under what
    follows the first ['@'], not under the domain. *)
Example check_smtp_at_in_local :
  split AT (address (lit "example.com") (lit "j@smith")) !! 1 = Some (lit "smith").
Proof. reflexivity. Qed.

(** ** The catch-all probe *)

Lemma alphabet_classes :
  Forall (λ c, is_lower c = true ∨ is_digit c = true) alphabet.
Proof. repeat (apply Forall_cons; split; [vm_compute; auto|]). constructor. Qed.

Lemma random_choices_classes draws :
  length (random_choices draws) = 10
  ∧ Forall (λ c, is_lower c = true ∨ is_digit c = true) (random_choices draws).
Proof.
  unfold random_choices. split; [by rewrite length_fmap|].
  apply Forall_fmap, Forall_forall. intros k _. unfold compose. cbv beta.
  assert (draws k mod 36 < length alphabet) as Hlt.
  { change (length alphabet) with 36. apply Nat.mod_upper_bound. done. }
  match goal with |- context [?l !! ?i] => destruct (l !! i) as [c|] eqn:Hc end.
  - simpl. by eapply (Forall_lookup_1 _ _ _ _ alphabet_classes).
  - apply lookup_ge_None in Hc. unfold str, codepoint in *. lia.
Qed.

Lemma random_email_printable out draws domain :
  can_print out (random_email draws domain) = can_print out domain.
Proof.
  unfold random_email, address.
  rewrite (can_print_app _ _ (AT :: domain)), can_print_app.
  rewrite (can_print_ascii _ (lit "falan")) by done.
  rewrite (can_print_ascii _ (random_choices draws)); [done|].
  apply forallb_Forall. destruct (random_choices_classes draws) as [_ Hall].
  eapply Forall_impl; [exact Hall|]. intros c Hc. cbv beta.
  destruct Hc as [Hc|Hc]; char_class.
Qed.

Lemma check_email_catchall_outcome
    (self : Scout) (net : network) (draws : nat → nat) (domain : str) :
  (∃ b : bool, check_email_catchall self net draws domain = Returns b)
  ∨ check_email_catchall self net draws domain = Raises UnicodeEncodeError.
Proof.
  apply check_smtp_outcome. unfold random_email, address.
  apply elem_of_app. right. by left.
Qed.

Lemma check_email_catchall_returns
    (self : Scout) (net : network) (draws : nat → nat) (domain : str) :
  can_print (stdout net) domain = true →
  can_print (stdout net) (library_error_text net (random_email draws domain)) = true →
  ∃ b : bool, check_email_catchall self net draws domain = Returns b.
Proof.
  intros Hdomain Htext. apply check_smtp_returns; [| |done].
  - unfold random_email, address. apply elem_of_app. right. by left.
  - by rewrite random_email_printable.
Qed.

(** X4.  Whatever the domain and the random draws, the catch-all check
    probes one address [local@domain] whose local part is ten lower-case
    letters or digits followed by ["falan"].  It returns a boolean or
    raises [UnicodeEncodeError], and it returns a boolean whenever the
    standard output can print the domain and the text of the libraries'
    exception. *)
Theorem check_email_catchall_outcomes
    (self : Scout) (net : network) (draws : nat → nat) (domain : str) :
  ∃ random_prefix,
    random_email draws domain = address domain (random_prefix ++ lit "falan")
    ∧ length random_prefix = 10
    ∧ Forall (λ c, is_lower c = true ∨ is_digit c = true) random_prefix
    ∧ ((∃ b : bool, check_email_catchall self net draws domain = Returns b)
       ∨ check_email_catchall self net draws domain = Raises UnicodeEncodeError)
    ∧ (can_print (stdout net) domain = true →
       can_print (stdout net) (library_error_text net (random_email draws domain))
       = true →
       ∃ b : bool, check_email_catchall self net draws domain = Returns b).
Proof.
  destruct (random_choices_classes draws) as [Hlen Hall].
  exists (random_choices draws). split; [done|]. split; [done|]. split; [done|].
  split; [apply check_email_catchall_outcome|apply check_email_catchall_returns].
Qed.

Lemma check_email_catchall_outcomes_witness :
  (∃ b : bool,
     check_email_catchall default_scout dead_network (λ _, 0) (lit "example.com")
     = Returns b)
  ∧ check_email_catchall default_scout dead_network (λ _, 0) surrogate_domain
    = Raises UnicodeEncodeError.
Proof.
  destruct (check_email_catchall_outcomes default_scout dead_network (λ _, 0)
              (lit "example.com")) as (prefix & _ & _ & _ & _ & Hprints).
  split; [apply Hprints; reflexivity|]. reflexivity.
Defined.

(** ** More on [normalize_name] *)

Lemma ascii_lower_upper_ascii c : ascii_lower (ascii_upper c) = ascii_lower c.
Proof. char_class. Qed.

Lemma ascii_lower_ascii c : is_ascii c = true → is_ascii (ascii_lower c) = true.
Proof. intros H. char_class. Qed.

Lemma ascii_lower_class c :
  is_alnum (ascii_lower c) = true →
  is_lower (ascii_lower c) = true ∨ is_digit (ascii_lower c) = true.
Proof.
  pose proof (ascii_lower_not_upper c) as Hu. unfold is_alnum.
  rewrite Hu, orb_false_r. by intros ?%orb_true_iff.
Qed.

(** X5.  On an ASCII name [normalize_name] is plain lower-casing followed
    by the removal of everything but letters and digits; the result holds
    only lower-case letters and digits, and a second pass leaves it as it
    is. *)
Theorem normalize_name_ascii
    {U : UnicodeData} {L : UnicodeAscii U} (name : str) :
  Forall (λ c, is_ascii c = true) name →
  normalize_name name = strip_non_alnum (ascii_lower <$> name)
  ∧ Forall (λ c, is_lower c = true ∨ is_digit c = true) (normalize_name name)
  ∧ normalize_name (normalize_name name) = normalize_name name.
Proof.
  intros Ha.
  assert (Forall (λ c, is_ascii c = true) (ascii_lower <$> name)) as Hla.
  { apply Forall_fmap. eapply Forall_impl; [exact Ha|]. apply ascii_lower_ascii. }
  assert (normalize_name name = strip_non_alnum (ascii_lower <$> name)) as Heq.
  { unfold normalize_name.
    rewrite (str_upper_ascii name) by by apply forallb_Forall.
    rewrite str_lower_ascii.
    2:{ apply forallb_Forall, Forall_fmap. eapply Forall_impl; [exact Ha|].
        apply ascii_upper_ascii. }
    rewrite <-list_fmap_compose.
    assert ((ascii_lower ∘ ascii_upper) <$> name = ascii_lower <$> name) as ->.
    { apply list_fmap_ext. intros i c _. apply ascii_lower_upper_ascii. }
    rewrite (unidecode_ascii _ Hla).
    rewrite nfkd_ascii by by apply forallb_Forall.
    unfold ascii_ignore. by rewrite (filter_all is_ascii). }
  assert (Forall (λ c, is_lower c = true ∨ is_digit c = true) (normalize_name name))
    as Hclass.
  { rewrite Heq. unfold strip_non_alnum. apply Forall_forall.
    intros c [Hc (c' & -> & _)%list_elem_of_fmap]%list_elem_of_filter.
    by apply ascii_lower_class. }
  split; [done|]. split; [done|].
  apply normalize_name_fixpoint. eapply Forall_impl; [exact Hclass|].
  intros c [Hc|Hc]; char_class.
Qed.

Lemma normalize_name_ascii_witness :
  normalize_name (lit "O'Neil-Smith 3rd")
  = strip_non_alnum (ascii_lower <$> lit "O'Neil-Smith 3rd")
  ∧ Forall (λ c, is_lower c = true ∨ is_digit c = true)
      (normalize_name (lit "O'Neil-Smith 3rd"))
  ∧ normalize_name (normalize_name (lit "O'Neil-Smith 3rd"))
    = normalize_name (lit "O'Neil-Smith 3rd").
Proof.
  apply (normalize_name_ascii (U:=Excerpt.unicode) (lit "O'Neil-Smith 3rd")).
  repeat (apply Forall_cons; split; [vm_compute; reflexivity|]). constructor.
Defined.

(** X6.  Whatever the name, the result of [normalize_name] holds only
    ASCII letters and digits, a second pass lower-cases it, and so changes
    it exactly when the first pass left a capital letter. *)
Theorem normalize_name_second_pass
    {U : UnicodeData} {L : UnicodeAscii U} (name : str) :
  Forall (λ c, is_alnum c = true) (normalize_name name)
  ∧ normalize_name (normalize_name name) = ascii_lower <$> normalize_name name
  ∧ (normalize_name (normalize_name name) = normalize_name name
     ↔ Forall (λ c, is_upper c = false) (normalize_name name)).
Proof.
  split; [apply normalize_name_alnum|].
  split; [apply normalize_name_twice | apply normalize_name_fixpoint].
Qed.

Lemma normalize_name_second_pass_witness :
  Forall (λ c, is_alnum c = true) (normalize_name [0x5317; 0x4EB0]%N)
  ∧ normalize_name (normalize_name [0x5317; 0x4EB0]%N)
    = ascii_lower <$> normalize_name [0x5317; 0x4EB0]%N
  ∧ (normalize_name (normalize_name [0x5317; 0x4EB0]%N)
     = normalize_name [0x5317; 0x4EB0]%N
     ↔ Forall (λ c, is_upper c = false) (normalize_name [0x5317; 0x4EB0]%N)).
Proof.
  exact (normalize_name_second_pass (U:=Excerpt.unicode) (L:=excerpt_ascii)
           [0x5317; 0x4EB0]%N).
Defined.

(** ** More on the variants *)

Lemma elem_of_selects_1 {A} (l : list A) x rest :
  (x, rest) ∈ selects l → l ≡ₚ x :: rest.
Proof.
  revert x rest. induction l as [|y l IH]; intros x rest; simpl.
  - by intros ?%elem_of_nil.
  - intros [[= -> ->]|(p & [= -> ->] & Hp)%list_elem_of_fmap]%elem_of_cons; [done|].
    destruct p as [x' rest']. apply IH in Hp. simpl. rewrite Hp. apply Permutation_swap.
Qed.

Lemma elem_of_selects_2 {A} (l : list A) x :
  x ∈ l → ∃ rest, (x, rest) ∈ selects l.
Proof.
  induction l as [|y l IH]; [by intros ?%elem_of_nil|].
  intros [->|Hx]%elem_of_cons; simpl.
  - eexists. by left.
  - destruct (IH Hx) as [rest Hrest]. exists (y :: rest). right.
    apply list_elem_of_fmap. by exists (x, rest).
Qed.

(** The model of [itertools.permutations]: the arrangements of [r]
    positions of the list. *)
Lemma elem_of_permutations {A} (l : list A) r p :
  p ∈ permutations l r ↔ length p = r ∧ p ⊆+ l.
Proof.
  revert l p. induction r as [|r IH]; intros l p; simpl.
  - rewrite list_elem_of_singleton. split.
    + intros ->. split; [done|apply submseteq_nil_l].
    + by intros [->%length_zero_iff_nil _].
  - rewrite list_elem_of_bind. split.
    + intros ([x rest] & (p' & -> & Hp')%list_elem_of_fmap & Hsel). simpl in *.
      apply IH in Hp' as [<- Hsub]. split; [done|].
      rewrite (elem_of_selects_1 _ _ _ Hsel). by apply submseteq_skip.
    + intros [Hlen Hsub]. destruct p as [|x p']; [done|].
      apply submseteq_cons_l in Hsub as (k & Hk & Hsub).
      assert (x ∈ l) as Hx by (rewrite Hk; by left).
      destruct (elem_of_selects_2 _ _ Hx) as [rest Hsel].
      exists (x, rest). split; [|done]. simpl.
      apply list_elem_of_fmap. exists p'. split; [done|].
      apply IH. split; [by injection Hlen|].
      pose proof (elem_of_selects_1 _ _ _ Hsel) as Hl.
      rewrite Hk in Hl. apply Permutation_cons_inv in Hl. by rewrite <-Hl.
Qed.

Lemma add_individual_initials (names : list str) (vs X : gset str) :
  add_individual names vs = Returns X →
  X = list_to_set names ∪ list_to_set (take 1 <$> names) ∪ vs.
Proof.
  revert vs. induction names as [|name names IH]; intros vs; simpl.
  - intros [= <-]. set_solver.
  - destruct name as [|c name]; [done|]. simpl.
    intros ->%IH. unfold set_add. set_solver.
Qed.

Section VariantMembers.
Context {U : UnicodeData}.

(** The local parts of the variants. *)
Lemma variants_elem_of (tokens : list str) (X : gset str) (v : str) :
  add_individual tokens (add_combinations tokens ∅) = Returns X →
  v ∈ X ↔
    v ∈ take 1 <$> tokens
    ∨ ∃ p, p ≠ [] ∧ p ⊆+ tokens ∧ (v = join [] p ∨ v = join [DOT] p).
Proof.
  intros ->%add_individual_initials.
  unfold add_combinations. rewrite foldl_add_combinations.
  rewrite !elem_of_union, !elem_of_list_to_set, elem_of_empty.
  rewrite list_elem_of_bind. unfold joined. split.
  - intros [[Hv|Hv]|[Hv|[]]].
    + right. exists [v]. split; [done|]. split; [|left; reflexivity].
      by apply singleton_submseteq_l.
    + by left.
    + destruct Hv as (r & (p & Hv & [Hlen Hsub]%elem_of_permutations)%list_elem_of_bind
                        & Hr%elem_of_seq).
      right. exists p. split; [by destruct p; simpl in *; [lia|]|]. split; [done|].
      set_solver.
  - intros [Hv|(p & Hne & Hsub & Hv)]; [by left; right|].
    right. left. exists (length p). split.
    + apply list_elem_of_bind. exists p. split; [set_solver|].
      by apply elem_of_permutations.
    + apply elem_of_seq. pose proof (submseteq_length _ _ Hsub).
      destruct p; simpl in *; [done|lia].
Qed.

End VariantMembers.

(** X7.  [generate_email_variants] returns a list exactly when no token
    (after normalisation, when it is asked for) is empty, and raises
    [IndexError] exactly when one is. *)
Theorem generate_email_variants_returns_iff
    {U : UnicodeData} (names : list str) (domain : str) (nz : bool) :
  let tokens := if nz then normalize_name <$> names else names in
  ([] ∈ tokens ↔ generate_email_variants names domain nz = Raises IndexError)
  ∧ ([] ∉ tokens ↔ ∃ l, generate_email_variants names domain nz = Returns l).
Proof.
  intros tokens. unfold generate_email_variants. fold tokens.
  destruct (decide ([] ∈ tokens)) as [Hin|Hnot].
  - rewrite (add_individual_empty _ _ Hin). simpl. split; [done|].
    split; [done|]. by intros [l Hl].
  - destruct (add_individual_returns tokens (add_combinations tokens ∅) Hnot)
      as [X ->]. simpl. split; [done|]. split; [by eexists|done].
Qed.

(** X8.  The candidates [generate_email_variants] returns are exactly the
    addresses [v@domain] where [v] is the first character of a token, or
    the tokens of one or more distinct positions, in any order, written
    one after the other or separated by dots. *)
Theorem generate_email_variants_members
    {U : UnicodeData} (names : list str) (domain : str) (nz : bool)
    (l : list str) (e : str) :
  generate_email_variants names domain nz = Returns l →
  let tokens := if nz then normalize_name <$> names else names in
  e ∈ l ↔
    ∃ v, e = address domain v
         ∧ (v ∈ take 1 <$> tokens
            ∨ ∃ p, p ≠ [] ∧ p ⊆+ tokens ∧ (v = join [] p ∨ v = join [DOT] p)).
Proof.
  intros Hl tokens. unfold generate_email_variants in Hl. fold tokens in Hl.
  destruct (add_individual tokens _) as [X| |] eqn:HX; simplify_eq/=.
  rewrite list_elem_of_fmap. setoid_rewrite elem_of_elements.
  by setoid_rewrite (variants_elem_of tokens X _ HX).
Qed.

Lemma generate_email_variants_members_witness :
  lit "smith.john@example.com"
    ∈ address (lit "example.com") <$>
        (lit <$> ["s"; "smithjohn"; "smith.john"; "john"; "j"; "johnsmith";
                  "john.smith"; "smith"]%string)
  ↔ ∃ v, lit "smith.john@example.com" = address (lit "example.com") v
         ∧ (v ∈ take 1 <$> (normalize_name <$> [lit "John"; lit "Smith"])
            ∨ ∃ p, p ≠ [] ∧ p ⊆+ normalize_name <$> [lit "John"; lit "Smith"]
                   ∧ (v = join [] p ∨ v = join [DOT] p)).
Proof.
  apply (generate_email_variants_members (U:=Excerpt.unicode)
           [lit "John"; lit "Smith"] (lit "example.com") true).
  vm_compute. reflexivity.
Defined.

(** X9.  The order of the names does not matter to
    [generate_email_variants]: two orderings of the same names give the
    same candidates, or raise alike. *)
Theorem generate_email_variants_order
    {U : UnicodeData} (names names' : list str) (domain : str) (nz : bool) :
  names ≡ₚ names' →
  same_result (generate_email_variants names domain nz)
              (generate_email_variants names' domain nz).
Proof.
  intros Hperm. unfold generate_email_variants.
  set (tokens := if nz then normalize_name <$> names else names).
  set (tokens' := if nz then normalize_name <$> names' else names').
  assert (tokens ≡ₚ tokens') as Htok.
  { unfold tokens, tokens'. destruct nz; by rewrite Hperm. }
  destruct (decide ([] ∈ tokens)) as [Hin|Hnot].
  - rewrite (add_individual_empty tokens _ Hin).
    rewrite Htok in Hin. by rewrite (add_individual_empty tokens' _ Hin).
  - destruct (add_individual_returns tokens (add_combinations tokens ∅) Hnot)
      as [X HX].
    rewrite Htok in Hnot.
    destruct (add_individual_returns tokens' (add_combinations tokens' ∅) Hnot)
      as [X' HX'].
    rewrite HX, HX'. simpl.
    assert (X = X') as ->; [|done].
    apply set_eq. intros v.
    rewrite (variants_elem_of _ _ _ HX), (variants_elem_of _ _ _ HX').
    by setoid_rewrite Htok.
Qed.

Lemma generate_email_variants_order_witness :
  same_result
    (generate_email_variants [lit "John"; lit "Smith"] (lit "example.com") true)
    (generate_email_variants [lit "Smith"; lit "John"] (lit "example.com") true).
Proof.
  apply (generate_email_variants_order (U:=Excerpt.unicode)).
  apply Permutation_swap.
Defined.

(** ** More on the candidates of [find_valid_emails] *)

Section CandidateShape.
Context {U : UnicodeData} (self : Scout).

Lemma extend_variants_domain domain acc lists l :
  Forall (has_domain domain) acc →
  extend_variants self domain acc lists = Returns l →
  Forall (has_domain domain) l.
Proof.
  revert acc. induction lists as [|name_list lists IH]; intros acc Hacc; simpl.
  - by intros [= <-].
  - destruct (generate_email_variants _ _ _) as [vs| |] eqn:Hvs; simpl; try done.
    apply IH. apply Forall_app. split; [done|].
    by eapply generate_email_variants_domain.
Qed.

Lemma generate_prefixes_domain domain custom :
  Forall (has_domain domain) (generate_prefixes domain custom).
Proof.
  unfold generate_prefixes. apply Forall_fmap, Forall_forall. intros v _. by exists v.
Qed.

Lemma all_emails_domain domain names l :
  all_emails self domain names = Returns l → Forall (has_domain domain) l.
Proof.
  unfold all_emails.
  destruct (variant_stage self domain names) as [[names' vs]| |] eqn:Hstage;
    simpl; try done.
  intros [= <-]. apply Forall_app. split.
  - unfold variant_stage in Hstage.
    destruct (check_variants self && truthy names); [|by simplify_eq].
    destruct names as [|s|ns|first rest]; simpl in Hstage.
    + by simplify_eq.
    + destruct (generate_email_variants _ _ _) as [vs'| |] eqn:Hvs;
        simplify_eq/=. by eapply generate_email_variants_domain.
    + destruct (generate_email_variants _ _ _) as [vs'| |] eqn:Hvs;
        simplify_eq/=. by eapply generate_email_variants_domain.
    + destruct (generate_email_variants _ _ _) as [vs'| |] eqn:Hvs;
        simpl in Hstage; try done.
      destruct (extend_variants _ _ _ _) as [vs''| |] eqn:Hext; simplify_eq/=.
      eapply extend_variants_domain; [|exact Hext].
      eapply generate_email_variants_domain. exact Hvs.
  - destruct (check_prefixes self && negb (truthy names')); [|by constructor].
    apply generate_prefixes_domain.
Qed.

End CandidateShape.

(** X10.  Whatever the shape of [names], every candidate
    [find_valid_emails] puts on the queue is a local part followed by
    ['@'] and the domain; for a single string or one flat list of names
    the candidates are pairwise distinct. *)
Theorem all_emails_shape
    {U : UnicodeData} (self : Scout) (domain : str) (names : names_arg)
    (l : list str) :
  all_emails self domain names = Returns l →
  Forall (has_domain domain) l
  ∧ ((∀ first rest, names ≠ NamesNested first rest) → NoDup l).
Proof.
  intros Hl. split; [by eapply all_emails_domain|].
  intros Hflat. by eapply all_emails_NoDup.
Qed.

Lemma all_emails_shape_witness :
  Forall (has_domain (lit "example.com"))
    (address (lit "example.com") <$> (lit <$> ["john"; "j"]%string))
  ∧ ((∀ first rest, NamesStr (lit "John") ≠ NamesNested first rest) →
     NoDup (address (lit "example.com") <$> (lit <$> ["john"; "j"]%string))).
Proof.
  apply (all_emails_shape (U:=Excerpt.unicode) default_scout (lit "example.com")
           (NamesStr (lit "John"))).
  vm_compute. reflexivity.
Defined.

(** X11.  Which candidates are built: without names (none, an empty
    string or an empty list) they are the common prefixes, or nothing when
    prefix checking is off; with names and variant checking off there is
    no candidate at all, prefixes included; with a non-empty flat list and
    variant checking on they are the variants of its space-separated
    tokens and no prefix. *)
Theorem all_emails_modes
    {U : UnicodeData} (self : Scout) (domain : str) (names : names_arg) :
  (truthy names = false →
   all_emails self domain names
   = Returns (if check_prefixes self then generate_prefixes domain None else []))
  ∧ (truthy names = true → check_variants self = false →
     all_emails self domain names = Returns [])
  ∧ (∀ l, names = NamesList l → l ≠ [] → check_variants self = true →
     all_emails self domain names
     = generate_email_variants (split_list_data l) domain (normalize self)).
Proof.
  unfold all_emails, variant_stage. split; [|split].
  - intros Ht. rewrite Ht, andb_false_r. simpl. rewrite Ht.
    by destruct (check_prefixes self).
  - intros Ht ->. simpl. rewrite Ht. by destruct (check_prefixes self).
  - intros l -> Hl ->. simpl. rewrite bool_decide_true by done. simpl.
    destruct l as [|name l]; [done|].
    destruct (generate_email_variants _ _ _) as [vs| |]; simpl; try done.
    rewrite bool_decide_true by apply split_list_data_cons.
    by rewrite andb_false_r, app_nil_r.
Qed.

Lemma all_emails_modes_witness :
  all_emails default_scout (lit "example.com") (NamesStr [])
  = Returns (generate_prefixes (lit "example.com") None)
  ∧ all_emails (with_threads default_scout 3) (lit "example.com")
      (NamesList [lit "John Smith"])
    = generate_email_variants (split_list_data [lit "John Smith"])
        (lit "example.com") true.
Proof.
  split.
  - destruct (all_emails_modes (U:=Excerpt.unicode) default_scout
                (lit "example.com") (NamesStr [])) as (Hnone & _ & _).
    apply Hnone. reflexivity.
  - destruct (all_emails_modes (U:=Excerpt.unicode) (with_threads default_scout 3)
                (lit "example.com") (NamesList [lit "John Smith"]))
      as (_ & _ & Hlist).
    apply Hlist; done.
Defined.

(** ** More on [find_valid_emails] *)

Section FinderMore.
Context {U : UnicodeData} (self : Scout) (net : network).

Lemma deliverable_accepted emails :
  deliverable self net emails = accepted self net emails.
Proof.
  unfold deliverable, accepted. induction emails as [|e emails IH]; [done|].
  rewrite bind_cons, IH, probe_output, filter_cons. by case_decide.
Qed.

(** After the pre-flight check. *)
Lemma find_valid_emails_scheduled draws sched domain names :
  preflight_passes self net draws domain →
  find_valid_emails self net draws sched domain names
  = schedule_probes self net (preflight_probes self draws domain) sched domain names.
Proof.
  intros Hpass. unfold find_valid_emails, preflight_probes, preflight_passes in *.
  destruct (check_catchall self); [|done]. by rewrite Hpass.
Qed.

(** A call that returns, on a domain not judged catch-all, has gone
    through the scheduling stage. *)
Lemma find_valid_emails_returned draws sched domain names v :
  ¬ catchall_hit self net draws domain →
  (find_valid_emails self net draws sched domain names).1 = Returns v →
  (schedule_probes self net (preflight_probes self draws domain) sched domain names).1
  = Returns v.
Proof.
  intros Hmiss. unfold find_valid_emails, preflight_probes, catchall_hit in *.
  destruct (check_catchall self); [|done].
  destruct (check_email_catchall self net draws domain) as [[]|e|]; try done.
  by destruct Hmiss.
Qed.

Lemma schedule_probes_log log sched domain names emails :
  (1 ≤ num_threads self)%Z →
  can_print (stdout net) domain = true →
  all_emails self domain names = Returns emails →
  ∃ probed, (schedule_probes self net log sched domain names).2 = log ++ probed
            ∧ probed ≡ₚ emails.
Proof.
  intros Hn Hdomain Hemails. unfold schedule_probes. rewrite Hemails. simpl.
  destruct (PoolFacts.run_returns (probe_turn self net domain)
              (Z.to_nat (num_threads self)) emails sched) as (v & _ & _ & Hcalls).
  - left. lia.
  - intros a _. by apply probe_turn_returns.
  - by eexists.
Qed.

End FinderMore.

(** ** More on the worker pool *)

Module PoolMore.
Import Pool PoolFacts PoolOrder.
Section PoolMore.
Context {A B : Type} (body : A → outcome (option B)).

Abbreviation state := (@state A B).
Abbreviation worker := (@worker A B).

Lemma pending_cons (i : @instr A) pc :
  pending (i :: pc) = match i with Put (Some a) => [a] | _ => [] end ++ pending pc.
Proof. unfold pending. by rewrite bind_cons. Qed.

Lemma pending_app (pc1 pc2 : list (@instr A)) :
  pending (pc1 ++ pc2) = pending pc1 ++ pending pc2.
Proof. unfold pending. by rewrite bind_app. Qed.

Lemma starts_cons (i : @instr A) pc :
  starts (i :: pc) = match i with Start => 1 | _ => 0 end + starts pc.
Proof. done. Qed.

Lemma starts_app (pc1 pc2 : list (@instr A)) :
  starts (pc1 ++ pc2) = starts pc1 + starts pc2.
Proof. unfold starts. by rewrite sum_list_with_app. Qed.

Lemma pending_starts_replicate k (i : @instr A) :
  (∀ a, i ≠ Put (Some a)) →
  pending (replicate k i) = []
  ∧ starts (replicate k i) = k * match i with Start => 1 | _ => 0 end.
Proof.
  intros Hi. induction k as [|k [IH1 IH2]]; [done|]. cbn [replicate].
  rewrite pending_cons, starts_cons, IH1, IH2. split; [|lia].
  destruct i as [|[a|]| |]; try done. by destruct (Hi a).
Qed.

Lemma pending_starts_puts (items : list A) :
  pending (Put ∘ Some <$> items) = items ∧ starts (Put ∘ Some <$> items) = 0.
Proof.
  induction items as [|a items [IH1 IH2]]; [done|].
  rewrite fmap_cons, pending_cons, starts_cons, IH1, IH2. done.
Qed.

Lemma pending_starts_joins (js : list nat) :
  pending (@JoinThread A <$> js) = [] ∧ starts (@JoinThread A <$> js) = 0.
Proof.
  induction js as [|j js [IH1 IH2]]; [done|].
  rewrite fmap_cons, pending_cons, starts_cons, IH1, IH2. done.
Qed.

Lemma pending_program n (items : list A) : pending (program n items) = items.
Proof.
  unfold program. rewrite !pending_app.
  rewrite (proj1 (pending_starts_replicate n Start ltac:(done))).
  rewrite (proj1 (pending_starts_replicate n (Put None) ltac:(done))).
  rewrite (proj1 (pending_starts_puts items)), (proj1 (pending_starts_joins _)).
  rewrite pending_cons. simpl. by rewrite app_nil_r.
Qed.

Lemma starts_program n (items : list A) : starts (program n items) = n.
Proof.
  unfold program. rewrite !starts_app.
  rewrite (proj2 (pending_starts_replicate n Start ltac:(done))).
  rewrite (proj2 (pending_starts_replicate n (Put None) ltac:(done))).
  rewrite (proj2 (pending_starts_puts items)), (proj2 (pending_starts_joins _)).
  rewrite starts_cons. simpl. lia.
Qed.

Lemma in_order_init n items : n ≤ 1 → in_order body items (init n items).
Proof.
  intros Hn. unfold in_order, init. simpl.
  by rewrite starts_program, pending_program.
Qed.

Lemma step_in_order items t s s' :
  in_order body items s → step body t s = Some s' → in_order body items s'.
Proof.
  destruct s as [pc ws q u res cl]. unfold in_order. simpl. intros [Hone Hout].
  destruct t as [|i]; simpl.
  - unfold step_main. simpl.
    destruct pc as [|[|[a|]| |j] pc]; try done;
      rewrite pending_cons in Hout; rewrite starts_cons in Hone; simpl in Hout.
    + intros [= <-]. simpl.
      rewrite length_app, bind_app. simpl. rewrite app_nil_r. split; [lia|done].
    + intros [= <-]. simpl. split; [lia|].
      rewrite omap_app. simpl. by rewrite <-(assoc_L (++) (omap id q)).
    + intros [= <-]. simpl. split; [lia|].
      rewrite omap_app. simpl. by rewrite app_nil_r.
    + simpl. case_decide; [|done]. by intros [= <-].
    + simpl. destruct (ws !! j) as [[]|]; try done. by intros [= <-].
  - unfold step_worker. simpl.
    destruct (ws !! i) as [w|] eqn:Hi; [|done].
    assert (ws = [w] ∧ i = 0) as [-> ->].
    { destruct ws as [|w' [|w'' ws]]; simpl in *; [done| |lia].
      destruct i; simpl in *; [by simplify_eq|done]. }
    simpl in Hone. simpl in Hout. rewrite ?app_nil_r in Hout.
    destruct w as [|a|r| | |]; [| | | | |done]; simpl in Hout.
    + destruct q as [|[a|] q]; [done|..]; intros [= <-]; simpl;
        rewrite ?app_nil_r; (split; [lia|]).
      * rewrite Hout. change (omap id (Some a :: q)) with (a :: omap id q).
        by rewrite <-app_comm_cons, bind_cons.
      * done.
    + unfold output at 2 in Hout.
      destruct (body a) as [r| |] eqn:Hbody; [| |done]; intros [= <-]; simpl;
        rewrite ?app_nil_r; (split; [lia|done]).
    + intros [= <-]. simpl. split; [lia|].
      by rewrite <-(assoc_L (++) res).
    + destruct u; intros [= <-]; simpl; (split; [lia|done]).
    + intros [= <-]. simpl. split; [lia|done].
Qed.

Lemma final_in_order n items sched :
  n ≤ 1 → in_order body items (final body n items sched).
Proof.
  intros Hn. unfold final.
  assert (∀ s, in_order body items s → in_order body items (exec body sched s))
    as Hexec.
  { induction sched as [|t sched IH]; intros s Hs; [done|]. simpl.
    apply IH. destruct (step body t s) as [s'|] eqn:Hstep; [|done].
    by eapply step_in_order. }
  assert (∀ fuel s, in_order body items s → in_order body items (settle body fuel s))
    as Hsettle.
  { induction fuel as [|fuel IH]; intros s Hs; [done|]. simpl.
    destruct (next_state body s) as [s'|] eqn:Hnext; [|done].
    apply IH. apply first_step_Some in Hnext as [t Ht].
    by eapply step_in_order. }
  by apply Hsettle, Hexec, in_order_init.
Qed.

Lemma only_sentinels (q : list (option A)) :
  Forall (λ x, x = None) q → omap id q = [].
Proof. induction 1 as [|x q -> _ IH]; [done|]. exact IH. Qed.

(** With one worker the results come in the order of the items. *)
Lemma run_single_thread n items sched l :
  n ≤ 1 → run body n items sched = Returns l → l = items ≫= output body.
Proof.
  intros Hn. unfold run.
  destruct (final_in_order n items sched Hn) as [_ Hout].
  pose proof (final_inv body n items sched) as Hinv.
  destruct (pc (final body n items sched)) as [|instr rest] eqn:Hpc; [|done].
  intros [= <-]. rewrite Hout.
  destruct Hinv as [k todo queued Hpc' _ _ _ _ _|k i Hpc' _ _ Hws Hq _ _ _].
  - rewrite Hpc in Hpc'. by destruct k, todo.
  - destruct (idle_workers body _ Hws) as [_ ->].
    rewrite (only_sentinels _ Hq), ?Hpc. simpl. by rewrite app_nil_r.
Qed.

(** The body is only ever run to its end on items on which it comes
    back. *)
Lemma step_calls_return t s s' :
  Forall (λ a, body a ≠ Blocks) (calls s) → step body t s = Some s' →
  Forall (λ a, body a ≠ Blocks) (calls s').
Proof.
  destruct s as [pc ws q u res cl]. simpl. intros Hcl.
  destruct t as [|i]; simpl.
  - unfold step_main. simpl.
    destruct pc as [|[|x| |j] pc]; simpl; try done; try by intros [= <-].
    + case_decide; [|done]. by intros [= <-].
    + destruct (ws !! j) as [[]|]; try done. by intros [= <-].
  - unfold step_worker. simpl.
    destruct (ws !! i) as [[|a|r| | |]|]; try done.
    + destruct q as [|x q]; [done|]. by intros [= <-].
    + destruct (body a) eqn:Hbody; [| |done]; intros [= <-]; simpl;
        apply Forall_app; (split; [done|]); constructor; [|done| |done];
        by rewrite Hbody.
    + by intros [= <-].
    + destruct u; by intros [= <-].
    + by intros [= <-].
Qed.

Lemma final_calls_return n items sched :
  Forall (λ a, body a ≠ Blocks) (calls (final body n items sched)).
Proof.
  unfold final.
  assert (∀ s, Forall (λ a, body a ≠ Blocks) (calls s) →
               Forall (λ a, body a ≠ Blocks) (calls (exec body sched s))) as Hexec.
  { induction sched as [|t sched IH]; intros s Hs; [done|]. simpl.
    apply IH. destruct (step body t s) as [s'|] eqn:Hstep; [|done].
    by eapply step_calls_return. }
  assert (∀ fuel s, Forall (λ a, body a ≠ Blocks) (calls s) →
                    Forall (λ a, body a ≠ Blocks) (calls (settle body fuel s)))
    as Hsettle.
  { induction fuel as [|fuel IH]; intros s Hs; [done|]. simpl.
    destruct (next_state body s) as [s'|] eqn:Hnext; [|done].
    apply IH. apply first_step_Some in Hnext as [t Ht].
    by eapply step_calls_return. }
  apply Hsettle, Hexec. constructor.
Qed.

(** One item on which the body never comes back is enough for the pool
    never to come back. *)
Lemma run_blocks_on_item n items sched a :
  a ∈ items → body a = Blocks → run body n items sched = Blocks.
Proof.
  intros Ha Hblocks. unfold run.
  pose proof (final_inv body n items sched) as Hinv.
  pose proof (final_calls_return n items sched) as Hcalls.
  destruct (pc (final body n items sched)) as [|instr rest] eqn:Hpc; [|done].
  destruct (inv_returned body _ _ _ Hinv Hpc) as [_ Hperm].
  rewrite Hperm in Hcalls. rewrite Forall_forall in Hcalls.
  by destruct (Hcalls a Ha).
Qed.

(** Whatever the number of threads, a pool that comes back has appended
    what the items produce, each once. *)
Lemma run_returned n items sched l :
  run body n items sched = Returns l → l ≡ₚ items ≫= output body.
Proof.
  unfold run. pose proof (final_inv body n items sched) as Hinv.
  destruct (pc (final body n items sched)) as [|instr rest] eqn:Hpc; [|done].
  intros [= <-]. by destruct (inv_returned body _ _ _ Hinv Hpc).
Qed.

Lemma run_never_raises n items sched e : run body n items sched ≠ Raises e.
Proof. unfold run. by destruct (pc (final body n items sched)). Qed.

Lemma sum_lost_le (ws : list worker) : sum_list_with lost ws ≤ length ws.
Proof. induction ws as [|[] ws IH]; simpl; lia. Qed.

(** When the [except] clause raises on every item, each call of the
    body costs a worker. *)
Lemma step_lost n items t s s' :
  (∀ a, a ∈ items → ∃ e, body a = Raises e) →
  inv body n items s →
  length (calls s) ≤ sum_list_with lost (workers s) →
  step body t s = Some s' →
  length (calls s') ≤ sum_list_with lost (workers s').
Proof.
  intros Hraise Hinv. destruct s as [pc ws q u res cl]. simpl. intros Hle.
  destruct t as [|i]; simpl.
  - unfold step_main. simpl.
    destruct pc as [|[|x| |j] pc]; simpl; try done.
    + intros [= <-]. simpl. rewrite sum_list_with_app. simpl. lia.
    + by intros [= <-].
    + case_decide; [|done]. by intros [= <-].
    + destruct (ws !! j) as [[]|]; try done. by intros [= <-].
  - unfold step_worker. simpl.
    destruct (ws !! i) as [w|] eqn:Hi; [|done].
    assert (∀ a, w = Holding a → a ∈ items) as Hheld.
    { intros a ->.
      destruct Hinv as [k todo queued _ _ _ _ Hitems _|k j _ _ _ Hws _ _ _ _];
        simpl in *.
      - rewrite Hitems. apply elem_of_app. right. apply elem_of_app. left.
        by eapply origin_elem_of.
      - by destruct (Forall_lookup_1 _ _ _ _ Hws Hi). }
    destruct (lookup_split _ _ _ Hi) as (pre & post & -> & _ & Hins).
    rewrite sum_list_with_app in Hle.
    destruct w as [|a|r| | |]; simpl in Hle; [| | | | |done].
    + destruct q as [|[a|] q]; [done|..]; intros [= <-]; simpl;
        rewrite Hins, sum_list_with_app; simpl; lia.
    + destruct (Hraise a (Hheld a eq_refl)) as [e ->]. intros [= <-]. simpl.
      rewrite Hins, sum_list_with_app, length_app. simpl. lia.
    + intros [= <-]. simpl. rewrite Hins, sum_list_with_app. simpl. lia.
    + destruct u; intros [= <-]; simpl; rewrite Hins, sum_list_with_app;
        simpl; lia.
    + intros [= <-]. simpl. rewrite Hins, sum_list_with_app. simpl. lia.
Qed.

End PoolMore.
End PoolMore.

(** ** What [find_valid_emails] returns *)

Section FinderResults.
Context {U : UnicodeData} (self : Scout) (net : network).

Lemma schedule_probes_inv log sched domain names v :
  (schedule_probes self net log sched domain names).1 = Returns v →
  ∃ emails, all_emails self domain names = Returns emails
            ∧ v ≡ₚ accepted self net emails.
Proof.
  unfold schedule_probes.
  destruct (all_emails self domain names) as [emails| |]; simpl; try done.
  intros Hv%PoolMore.run_returned. exists emails. split; [done|].
  by rewrite <-deliverable_accepted, <-(probe_turn_deliverable _ _ domain).
Qed.

Lemma find_valid_emails_inv draws sched domain names v :
  (find_valid_emails self net draws sched domain names).1 = Returns v →
  v = [] ∨ ∃ emails, all_emails self domain names = Returns emails
                     ∧ v ≡ₚ accepted self net emails.
Proof.
  unfold find_valid_emails. destruct (check_catchall self).
  - destruct (check_email_catchall self net draws domain) as [[]| |]; simpl;
      try done.
    + intros [= <-]. by left.
    + intros Hv. right. by eapply schedule_probes_inv.
  - intros Hv. right. by eapply schedule_probes_inv.
Qed.

End FinderResults.

(** X12.  With at least one thread and a domain the standard output can
    print, once the pre-flight check has passed (it is disabled, or it
    judges the domain not catch-all), [find_valid_emails] hands to
    [check_smtp] first the random address of the catch-all check (when it
    is enabled) and then every candidate exactly once. *)
Theorem find_valid_emails_probes_each_once
    {U : UnicodeData} (self : Scout) (net : network) (draws : nat → nat)
    (sched : list nat) (domain : str) (names : names_arg) (emails : list str) :
  (1 ≤ num_threads self)%Z →
  can_print (stdout net) domain = true →
  preflight_passes self net draws domain →
  all_emails self domain names = Returns emails →
  ∃ probed,
    (find_valid_emails self net draws sched domain names).2
    = preflight_probes self draws domain ++ probed
    ∧ probed ≡ₚ emails.
Proof.
  intros Hn Hdomain Hpass Hemails.
  rewrite (find_valid_emails_scheduled _ _ _ _ _ _ Hpass).
  by apply schedule_probes_log.
Qed.

Lemma find_valid_emails_probes_each_once_witness :
  ∃ probed,
    (find_valid_emails default_scout dead_network (λ _, 0) [0; 1; 0; 2; 3]
       (lit "example.com") (NamesStr (lit "John"))).2
    = preflight_probes default_scout (λ _, 0) (lit "example.com") ++ probed
    ∧ probed ≡ₚ address (lit "example.com") <$> (lit <$> ["john"; "j"]%string).
Proof.
  apply (find_valid_emails_probes_each_once (U:=Excerpt.unicode) default_scout
           dead_network (λ _, 0) [0; 1; 0; 2; 3] (lit "example.com")
           (NamesStr (lit "John"))).
  - vm_compute. discriminate.
  - reflexivity.
  - intros _. vm_compute. reflexivity.
  - vm_compute. reflexivity.
Defined.

(** X13.  With at least one thread and a domain the standard output can
    print, once the pre-flight check has passed (it is disabled, or it
    judges the domain not catch-all), [find_valid_emails] returns exactly
    the candidates [check_smtp] accepts, each as often as it is a
    candidate, whatever the schedule of the threads. *)
Theorem find_valid_emails_returns_accepted
    {U : UnicodeData} (self : Scout) (net : network) (draws : nat → nat)
    (sched : list nat) (domain : str) (names : names_arg) (emails : list str) :
  (1 ≤ num_threads self)%Z →
  can_print (stdout net) domain = true →
  preflight_passes self net draws domain →
  all_emails self domain names = Returns emails →
  ∃ v, (find_valid_emails self net draws sched domain names).1 = Returns v
       ∧ v ≡ₚ accepted self net emails.
Proof.
  intros Hn Hdomain Hpass Hemails.
  rewrite (find_valid_emails_scheduled _ _ _ _ _ _ Hpass).
  destruct (schedule_probes_returns self net (preflight_probes self draws domain)
              sched _ _ _ Hn Hdomain Hemails) as (v & Hv & Hperm).
  exists v. split; [done|]. by rewrite <-deliverable_accepted.
Qed.

Lemma find_valid_emails_returns_accepted_witness :
  ∃ v, (find_valid_emails default_scout (selective_network [lit "j@example.com"])
          (λ _, 0) [0; 1; 0; 2; 3] (lit "example.com") (NamesStr (lit "John"))).1
       = Returns v
       ∧ v ≡ₚ accepted default_scout (selective_network [lit "j@example.com"])
                (address (lit "example.com") <$> (lit <$> ["john"; "j"]%string)).
Proof.
  apply (find_valid_emails_returns_accepted (U:=Excerpt.unicode) default_scout
           (selective_network [lit "j@example.com"]) (λ _, 0) [0; 1; 0; 2; 3]
           (lit "example.com") (NamesStr (lit "John"))).
  - vm_compute. discriminate.
  - reflexivity.
  - intros _. vm_compute. reflexivity.
  - vm_compute. reflexivity.
Defined.

(** X14.  Whenever [find_valid_emails] returns, with any number of threads
    and any schedule, every address of the result is a candidate of the
    domain that [check_smtp] accepted. *)
Theorem find_valid_emails_sound
    {U : UnicodeData} (self : Scout) (net : network) (draws : nat → nat)
    (sched : list nat) (domain : str) (names : names_arg) (v : list str) :
  (find_valid_emails self net draws sched domain names).1 = Returns v →
  Forall (λ e, has_domain domain e ∧ check_smtp self net e = Returns true) v.
Proof.
  intros [->|(emails & Hemails & Hperm)]%find_valid_emails_inv; [constructor|].
  rewrite Hperm. unfold accepted. apply Forall_forall.
  intros e [Hacc He]%list_elem_of_filter. split; [|done].
  pose proof (all_emails_domain self _ _ _ Hemails) as Hdom.
  by eapply Forall_forall in Hdom.
Qed.

Lemma find_valid_emails_sound_witness :
  Forall (λ e, has_domain (lit "example.com") e
               ∧ check_smtp default_scout (selective_network [lit "j@example.com"]) e
                 = Returns true)
    [lit "j@example.com"].
Proof.
  apply (find_valid_emails_sound (U:=Excerpt.unicode) default_scout
           (selective_network [lit "j@example.com"]) (λ _, 0) [0; 1; 0; 2; 3]
           (lit "example.com") (NamesStr (lit "John"))).
  vm_compute. reflexivity.
Defined.

(** X15.  Two exceptions leave [find_valid_emails]: the [IndexError] of
    the candidate generation, which needs names, variant checking on and
    a pre-flight check that has passed; and the [UnicodeEncodeError] of
    the catch-all probe, whose [except] clause could not print. *)
Theorem find_valid_emails_raises
    {U : UnicodeData} (self : Scout) (net : network) (draws : nat → nat)
    (sched : list nat) (domain : str) (names : names_arg) (e : exn) :
  (find_valid_emails self net draws sched domain names).1 = Raises e →
  (e = IndexError
   ∧ all_emails self domain names = Raises IndexError
   ∧ check_variants self = true ∧ truthy names = true
   ∧ preflight_passes self net draws domain)
  ∨ (e = UnicodeEncodeError
     ∧ check_catchall self = true
     ∧ check_email_catchall self net draws domain = Raises UnicodeEncodeError).
Proof.
  assert (∀ log, (schedule_probes self net log sched domain names).1 = Raises e →
                 e = IndexError ∧ all_emails self domain names = Raises IndexError
                 ∧ check_variants self = true ∧ truthy names = true) as Hsched.
  { intros log. unfold schedule_probes.
    destruct (all_emails self domain names) as [emails|e'|] eqn:Hemails; simpl.
    - by intros ?%PoolMore.run_never_raises.
    - intros [= ->]. by destruct (all_emails_raises self _ _ _ Hemails) as (-> & ? & ?).
    - done. }
  unfold find_valid_emails, preflight_passes.
  destruct (check_catchall self).
  - destruct (check_email_catchall_outcome self net draws domain) as [[[] Hb]|Hb];
      rewrite Hb; simpl.
    + done.
    + intros (-> & ? & ? & ?)%Hsched. by left.
    + intros [= <-]. by right.
  - intros (-> & ? & ? & ?)%Hsched. by left.
Qed.

Lemma find_valid_emails_raises_witness :
  ((IndexError = IndexError
    ∧ all_emails default_scout (lit "example.com") (NamesStr (lit "john  smith"))
      = Raises IndexError
    ∧ check_variants default_scout = true
    ∧ truthy (NamesStr (lit "john  smith")) = true
    ∧ preflight_passes default_scout dead_network (λ _, 0) (lit "example.com"))
   ∨ (IndexError = UnicodeEncodeError
      ∧ check_catchall default_scout = true
      ∧ check_email_catchall default_scout dead_network (λ _, 0) (lit "example.com")
        = Raises UnicodeEncodeError))
  ∧ ((UnicodeEncodeError = IndexError
      ∧ all_emails default_scout surrogate_domain NamesNone = Raises IndexError
      ∧ check_variants default_scout = true
      ∧ truthy NamesNone = true
      ∧ preflight_passes default_scout dead_network (λ _, 0) surrogate_domain)
     ∨ (UnicodeEncodeError = UnicodeEncodeError
        ∧ check_catchall default_scout = true
        ∧ check_email_catchall default_scout dead_network (λ _, 0) surrogate_domain
          = Raises UnicodeEncodeError)).
Proof.
  split.
  - apply (find_valid_emails_raises (U:=Excerpt.unicode) default_scout dead_network
             (λ _, 0) [] (lit "example.com") (NamesStr (lit "john  smith"))).
    vm_compute. reflexivity.
  - apply (find_valid_emails_raises (U:=Excerpt.unicode) default_scout dead_network
             (λ _, 0) [] surrogate_domain NamesNone).
    vm_compute. reflexivity.
Defined.

(** X16.  With no thread ([num_threads] zero or negative), once the
    pre-flight check has passed (it is disabled, or it judges the domain
    not catch-all), [find_valid_emails] returns the empty list when there
    is no candidate and never returns when there is one. *)
Theorem find_valid_emails_no_thread
    {U : UnicodeData} (self : Scout) (net : network) (draws : nat → nat)
    (sched : list nat) (domain : str) (names : names_arg) (emails : list str) :
  (num_threads self ≤ 0)%Z →
  preflight_passes self net draws domain →
  all_emails self domain names = Returns emails →
  (find_valid_emails self net draws sched domain names).1
  = match emails with [] => Returns [] | _ => Blocks end.
Proof.
  intros Hn Hpass Hemails. rewrite (find_valid_emails_scheduled _ _ _ _ _ _ Hpass).
  destruct emails as [|email emails].
  - unfold schedule_probes. rewrite Hemails. simpl.
    destruct (PoolFacts.run_returns (probe_turn self net domain)
                (Z.to_nat (num_threads self)) [] sched) as (v & -> & Hv & _);
      [by right|by intros a ?%elem_of_nil|].
    by apply Permutation_nil_r in Hv as ->.
  - by eapply schedule_probes_blocks.
Qed.

Lemma find_valid_emails_no_thread_witness :
  (find_valid_emails (with_threads default_scout 0) dead_network (λ _, 0) [0; 1]
     (lit "example.com") (NamesStr (lit "John"))).1
  = match address (lit "example.com") <$> (lit <$> ["john"; "j"]%string) with
    | [] => Returns []
    | _ => Blocks
    end.
Proof.
  apply (find_valid_emails_no_thread (U:=Excerpt.unicode)
           (with_threads default_scout 0) dead_network (λ _, 0) [0; 1]
           (lit "example.com") (NamesStr (lit "John"))).
  - vm_compute. discriminate.
  - intros _. vm_compute. reflexivity.
  - vm_compute. reflexivity.
Defined.

(** X17.  With exactly one thread (or none) the result of
    [find_valid_emails], when it returns, is the list of the accepted
    candidates in the order of the candidates, whatever the schedule. *)
Theorem find_valid_emails_single_thread
    {U : UnicodeData} (self : Scout) (net : network) (draws : nat → nat)
    (sched : list nat) (domain : str) (names : names_arg) (emails v : list str) :
  (num_threads self ≤ 1)%Z →
  ¬ catchall_hit self net draws domain →
  all_emails self domain names = Returns emails →
  (find_valid_emails self net draws sched domain names).1 = Returns v →
  v = accepted self net emails.
Proof.
  intros Hn Hmiss Hemails Hv.
  apply (find_valid_emails_returned _ _ _ _ _ _ _ Hmiss) in Hv.
  unfold schedule_probes in Hv. rewrite Hemails in Hv. simpl in Hv.
  apply PoolMore.run_single_thread in Hv; [|lia].
  by rewrite <-deliverable_accepted, <-(probe_turn_deliverable _ _ domain).
Qed.

Lemma find_valid_emails_single_thread_witness :
  [lit "john@example.com"; lit "j@example.com"]
  = accepted (with_threads default_scout 1)
      (selective_network [lit "j@example.com"; lit "john@example.com"])
      (address (lit "example.com") <$> (lit <$> ["john"; "j"]%string)).
Proof.
  apply (find_valid_emails_single_thread (U:=Excerpt.unicode)
           (with_threads default_scout 1)
           (selective_network [lit "j@example.com"; lit "john@example.com"])
           (λ _, 0) [1; 0; 0; 1; 1; 0] (lit "example.com") (NamesStr (lit "John"))).
  - vm_compute. discriminate.
  - intros [_ Hhit]. vm_compute in Hhit. discriminate.
  - vm_compute. reflexivity.
  - vm_compute. reflexivity.
Defined.

(** ** More on [find_valid_emails_bulk] *)

Lemma email_data_clean_sublist email_data :
  sublist (email_data_clean email_data) email_data.
Proof.
  induction email_data as [|i rest IH]; simpl; [constructor|].
  case_decide; by constructor.
Qed.

Lemma email_data_clean_id email_data :
  NoDup email_data → email_data_clean email_data = email_data.
Proof.
  induction 1 as [|i rest Hi _ IH]; simpl; [done|].
  by rewrite decide_False, IH.
Qed.

Lemma email_data_clean_snoc email_data job :
  email_data_clean (email_data ++ [job])
  = filter (λ i, i ≠ job) (email_data_clean email_data) ++ [job].
Proof.
  induction email_data as [|i rest IH]; simpl; [done|].
  destruct (decide (i = job)) as [->|Hne].
  - rewrite decide_True by (apply elem_of_app; right; by left).
    rewrite IH. case_decide; [done|].
    by rewrite filter_cons_False by naive_solver.
  - destruct (decide (i ∈ rest)) as [Hin|Hnot].
    + rewrite decide_True by (apply elem_of_app; by left). done.
    + rewrite decide_False.
      2:{ rewrite elem_of_app, list_elem_of_singleton. naive_solver. }
      by rewrite filter_cons_True, IH by done.
Qed.

(** X18.  The de-duplication of the jobs keeps, of each job, its last
    occurrence, in the order of these occurrences: the result is a
    sub-list of the input with the same jobs and no job twice, a list
    without repeated job is left as it is, cleaning twice is cleaning
    once, and appending a job moves it to the end. *)
Theorem email_data_clean_keeps_last (email_data : list bulk_job) (job : bulk_job) :
  sublist (email_data_clean email_data) email_data
  ∧ (NoDup email_data → email_data_clean email_data = email_data)
  ∧ email_data_clean (email_data_clean email_data) = email_data_clean email_data
  ∧ email_data_clean (email_data ++ [job])
    = filter (λ i, i ≠ job) (email_data_clean email_data) ++ [job].
Proof.
  split; [apply email_data_clean_sublist|].
  split; [apply email_data_clean_id|].
  split; [apply email_data_clean_id, email_data_clean_NoDup|].
  apply email_data_clean_snoc.
Qed.

Lemma email_data_clean_keeps_last_witness :
  let a := {| job_domain := lit "a.example"; job_names := None |} in
  let b := {| job_domain := lit "b.example"; job_names := None |} in
  email_data_clean [a; b] = [a; b]
  ∧ email_data_clean ([a; b] ++ [a]) = [b; a].
Proof.
  intros a b.
  destruct (email_data_clean_keeps_last [a; b] a) as (_ & Hid & _ & Hsnoc).
  split.
  - apply Hid. apply (bool_decide_unpack (NoDup [a; b])). vm_compute. exact I.
  - rewrite Hsnoc. vm_compute. reflexivity.
Defined.

Section BulkMore.
Context {U : UnicodeData} (self : Scout) (net : network).
Context (draws_of : bulk_job → nat → nat) (sched_of : bulk_job → list nat).

Lemma bulk_results_elem_of sched email_data results r :
  find_valid_emails_bulk self net draws_of sched_of sched email_data
  = Returns results →
  r ∈ results ↔
    ∃ job, job ∈ email_data ∧ r ∈ job_entries self net draws_of sched_of job.
Proof.
  unfold find_valid_emails_bulk. intros Hrun%PoolMore.run_returned.
  rewrite Hrun, list_elem_of_bind.
  setoid_rewrite job_turn_output. setoid_rewrite email_data_clean_elem_of.
  naive_solver.
Qed.

End BulkMore.

(** X19.  Whenever [find_valid_emails_bulk] returns, every entry of the
    result stems from a job of the input: it carries that job's domain,
    its names (the empty list when the job has none) and the list that
    job's [find_valid_emails] returned, and every address in it belongs to
    that domain. *)
Theorem find_valid_emails_bulk_sound
    {U : UnicodeData} (self : Scout) (net : network)
    (draws_of : bulk_job → nat → nat) (sched_of : bulk_job → list nat)
    (sched : list nat) (email_data : list bulk_job) (results : list bulk_result) :
  find_valid_emails_bulk self net draws_of sched_of sched email_data
  = Returns results →
  Forall (λ r,
    (∃ job, job ∈ email_data
            ∧ res_domain r = job_domain job
            ∧ res_names r = default (NamesList []) (job_names job)
            ∧ (find_valid_emails self net (draws_of job) (sched_of job)
                 (job_domain job) (default (NamesList []) (job_names job))).1
              = Returns (res_valid_emails r))
    ∧ Forall (has_domain (res_domain r)) (res_valid_emails r)) results.
Proof.
  intros Hrun. apply Forall_forall. intros r Hr.
  apply (bulk_results_elem_of _ _ _ _ _ _ _ _ Hrun) in Hr as (job & Hjob & Hr).
  unfold job_entries in Hr.
  destruct (find_valid_emails _ _ _ _ _ _).1 as [v| |] eqn:Hv;
    [|by apply elem_of_nil in Hr..].
  apply list_elem_of_singleton in Hr as ->. simpl. split.
  - exists job. by rewrite Hv.
  - apply find_valid_emails_inv in Hv as [->|(emails & Hemails & Hperm)];
      [constructor|].
    rewrite Hperm. unfold accepted. apply Forall_forall.
    intros e [_ He]%list_elem_of_filter.
    pose proof (all_emails_domain self _ _ _ Hemails) as Hdom.
    by eapply Forall_forall in Hdom.
Qed.

Lemma find_valid_emails_bulk_sound_witness :
  let john := {| job_domain := lit "example.com";
                 job_names := Some (NamesList [lit "John"]) |} in
  let net := selective_network [lit "john@example.com"] in
  Forall (λ r,
    (∃ job, job ∈ [john; john]
            ∧ res_domain r = job_domain job
            ∧ res_names r = default (NamesList []) (job_names job)
            ∧ (find_valid_emails default_scout net (λ _, 0) []
                 (job_domain job) (default (NamesList []) (job_names job))).1
              = Returns (res_valid_emails r))
    ∧ Forall (has_domain (res_domain r)) (res_valid_emails r))
    [{| res_domain := lit "example.com"; res_names := NamesList [lit "John"];
        res_valid_emails := [lit "john@example.com"] |}].
Proof.
  intros john net.
  apply (find_valid_emails_bulk_sound (U:=Excerpt.unicode) default_scout net
           (λ _ _, 0) (λ _, []) [] [john; john]).
  vm_compute. reflexivity.
Defined.

(** X20.  [find_valid_emails_bulk] returns the empty list on an empty job
    list whatever the pool sizes; with no bulk thread and a job, or with a
    job whose [find_valid_emails] never returns, it never returns. *)
Theorem find_valid_emails_bulk_blocks
    {U : UnicodeData} (self : Scout) (net : network)
    (draws_of : bulk_job → nat → nat) (sched_of : bulk_job → list nat)
    (sched : list nat) (email_data : list bulk_job) :
  (email_data = [] →
   find_valid_emails_bulk self net draws_of sched_of sched email_data = Returns [])
  ∧ ((num_bulk_threads self ≤ 0)%Z → email_data ≠ [] →
     find_valid_emails_bulk self net draws_of sched_of sched email_data = Blocks)
  ∧ (∀ job, job ∈ email_data →
     (find_valid_emails self net (draws_of job) (sched_of job) (job_domain job)
        (default (NamesList []) (job_names job))).1 = Blocks →
     find_valid_emails_bulk self net draws_of sched_of sched email_data = Blocks).
Proof.
  unfold find_valid_emails_bulk. split; [|split].
  - intros ->. simpl.
    destruct (PoolFacts.run_returns (job_turn self net draws_of sched_of)
                (Z.to_nat (num_bulk_threads self)) [] sched) as (v & -> & Hv & _);
      [by right|by intros a ?%elem_of_nil|].
    by apply Permutation_nil_r in Hv as ->.
  - intros Hn Hne. apply PoolFacts.run_blocks; [lia|].
    destruct email_data as [|job rest]; [done|].
    assert (job ∈ email_data_clean (job :: rest)) as Hin
      by (apply email_data_clean_elem_of; by left).
    intros Hnil. rewrite Hnil in Hin. by apply elem_of_nil in Hin.
  - intros job Hjob Hblocks. apply (PoolMore.run_blocks_on_item _ _ _ _ job).
    + by apply email_data_clean_elem_of.
    + unfold job_turn, job_body. by rewrite Hblocks.
Qed.

Lemma find_valid_emails_bulk_blocks_witness :
  let job := {| job_domain := lit "example.com"; job_names := None |} in
  find_valid_emails_bulk default_scout dead_network (λ _ _, 0) (λ _, []) [] []
  = Returns []
  ∧ find_valid_emails_bulk (with_threads default_scout 0) dead_network
      (λ _ _, 0) (λ _, []) [] [job] = Blocks.
Proof.
  intros job. split.
  - destruct (find_valid_emails_bulk_blocks (U:=Excerpt.unicode) default_scout
                dead_network (λ _ _, 0) (λ _, []) [] []) as (Hnil & _ & _).
    by apply Hnil.
  - destruct (find_valid_emails_bulk_blocks (U:=Excerpt.unicode)
                (with_threads default_scout 0) dead_network
                (λ _ _, 0) (λ _, []) [] [job]) as (_ & _ & Hjob).
    apply (Hjob job); [by left|]. vm_compute. reflexivity.
Defined.

(** ** The [try] statements of the workers *)

(** X22.  One turn of the worker of [find_valid_emails] on an address:
    the address is appended exactly when [check_smtp] answers [True];
    the only exception that can leave the [try] statement is the
    [UnicodeEncodeError] of its own [print], and it does exactly when
    [check_smtp] raised and the standard output cannot encode the domain;
    with a domain it can encode the worker stays in its loop. *)
Theorem probe_worker_turn
    (self : Scout) (net : network) (domain email : str) :
  (probe_turn self net domain email = Returns (Some email) ↔
   check_smtp self net email = Returns true)
  ∧ (probe_turn self net domain email = Raises UnicodeEncodeError ↔
     (∃ e, check_smtp self net email = Raises e)
     ∧ can_print (stdout net) domain = false)
  ∧ (∀ e, probe_turn self net domain email = Raises e → e = UnicodeEncodeError)
  ∧ (can_print (stdout net) domain = true →
     ∃ r, probe_turn self net domain email = Returns r).
Proof.
  unfold probe_turn, probe_body.
  pose proof (check_smtp_never_blocks self net email) as Hb.
  destruct (check_smtp self net email) as [[]|e|] eqn:Hprobe; simpl; [| | |done].
  - split; [done|]. split; [|split; [done|by eauto]].
    split; [done|]. by intros [[e ?] _].
  - split; [done|]. split; [|split; [done|by eauto]].
    split; [done|]. by intros [[e ?] _].
  - rewrite worker_handler.
    rewrite (exn_text_printable net email e), andb_true_r
      by (by destruct (check_smtp_raises_only _ _ _ _ Hprobe) as [-> | ->]).
    destruct (can_print (stdout net) domain).
    + split; [done|]. split; [|split; [done|by eauto]].
      split; [done|]. by intros [_ ?].
    + split; [done|]. split; [|split; [by intros e' [= <-]|done]].
      split; [by eauto|done].
Qed.

Lemma probe_worker_turn_witness :
  probe_turn default_scout (selective_network [lit "j@example.com"])
    (lit "example.com") (lit "j@example.com") = Returns (Some (lit "j@example.com"))
  ∧ probe_turn default_scout dead_network surrogate_domain
      (address surrogate_domain (lit "j")) = Raises UnicodeEncodeError
  ∧ ∃ r, probe_turn default_scout dead_network (lit "example.com")
           (address surrogate_domain (lit "j")) = Returns r.
Proof.
  split; [|split].
  - apply (probe_worker_turn default_scout (selective_network [lit "j@example.com"])
             (lit "example.com") (lit "j@example.com")).
    vm_compute. reflexivity.
  - apply (probe_worker_turn default_scout dead_network surrogate_domain
             (address surrogate_domain (lit "j"))).
    split; [exists UnicodeEncodeError|]; vm_compute; reflexivity.
  - apply (probe_worker_turn default_scout dead_network (lit "example.com")
             (address surrogate_domain (lit "j"))).
    reflexivity.
Defined.

(** X23.  One turn of the worker of [find_valid_emails_bulk] on a job: an
    entry is appended exactly when the job's [find_valid_emails] returns,
    and it carries what that call returned; the only exception that can
    leave the [try] statement is the [UnicodeEncodeError] of its own
    [print], and it does exactly when the job's [find_valid_emails] raised
    and the standard output cannot encode the job's domain. *)
Theorem bulk_worker_turn
    {U : UnicodeData} (self : Scout) (net : network)
    (draws_of : bulk_job → nat → nat) (sched_of : bulk_job → list nat)
    (data : bulk_job) :
  (∀ entry, job_turn self net draws_of sched_of data = Returns (Some entry) ↔
     ∃ valid_emails,
       (find_valid_emails self net (draws_of data) (sched_of data) (job_domain data)
          (default (NamesList []) (job_names data))).1 = Returns valid_emails
       ∧ entry = {| res_domain := job_domain data;
                    res_names := default (NamesList []) (job_names data);
                    res_valid_emails := valid_emails |})
  ∧ (job_turn self net draws_of sched_of data = Raises UnicodeEncodeError ↔
     (∃ e, (find_valid_emails self net (draws_of data) (sched_of data)
              (job_domain data) (default (NamesList []) (job_names data))).1
           = Raises e)
     ∧ can_print (stdout net) (job_domain data) = false)
  ∧ (∀ e, job_turn self net draws_of sched_of data = Raises e →
          e = UnicodeEncodeError).
Proof.
  pose proof (job_body_raises_only self net draws_of sched_of data) as Honly.
  unfold job_turn, job_body in *.
  destruct (find_valid_emails _ _ _ _ _ _).1 as [v|e|] eqn:Hcall; simpl in *.
  - split; [|split; [|done]].
    + intros entry. split; [intros [= <-]; by eauto|].
      by intros (v' & [= <-] & ->).
    + split; [done|]. by intros [[e ?] _].
  - rewrite worker_handler.
    rewrite (exn_text_printable net (job_domain data) e), andb_true_r
      by (by destruct (Honly e eq_refl) as [-> | ->]).
    destruct (can_print (stdout net) (job_domain data)).
    + split; [|split; [|done]].
      * intros entry. split; [done|]. by intros (v' & ? & _).
      * split; [done|]. by intros [_ ?].
    + split; [|split; [|by intros e' [= <-]]].
      * intros entry. split; [done|]. by intros (v' & ? & _).
      * split; [by eauto|done].
  - split; [|split; [|done]].
    + intros entry. split; [done|]. by intros (v' & ? & _).
    + split; [done|]. by intros [[e ?] _].
Qed.

Lemma bulk_worker_turn_witness :
  let lost := {| job_domain := surrogate_domain; job_names := None |} in
  job_turn default_scout dead_network (λ _ _, 0) (λ _, []) lost
  = Raises UnicodeEncodeError.
Proof.
  intros lost.
  apply (bulk_worker_turn (U:=Excerpt.unicode) default_scout dead_network
           (λ _ _, 0) (λ _, []) lost).
  split; [exists UnicodeEncodeError|]; vm_compute; reflexivity.
Defined.

(** X24.  A worker whose [except] clause raises is lost to the pool.
    When the [except] clause raises on every item and there are more
    items than threads, the threads are used up before the queue is
    empty and the call never returns, whatever the schedule. *)
Theorem pool_runs_out_of_workers
    {A B : Type} (body : A → outcome (option B)) (n : nat) (items : list A)
    (sched : list nat) :
  (∀ a, a ∈ items → ∃ e, body a = Raises e) →
  (n < length items)%nat →
  Pool.run body n items sched = Blocks.
Proof.
  intros Hraise Hn. unfold Pool.run.
  assert (Pool.inv body n items (Pool.final body n items sched)
          ∧ (length (Pool.calls (Pool.final body n items sched))
             ≤ sum_list_with Pool.lost (Pool.workers (Pool.final body n items sched)))%nat)
    as [Hinv Hlost].
  { apply (PoolFacts.final_preserves body
             (λ s, Pool.inv body n items s
                   ∧ (length (Pool.calls s)
                      ≤ sum_list_with Pool.lost (Pool.workers s))%nat)).
    - intros t s s' [Hinv Hle] Hstep. split.
      + by eapply PoolFacts.step_inv.
      + by eapply PoolMore.step_lost.
    - split; [apply PoolFacts.inv_init|done]. }
  destruct (Pool.pc (Pool.final body n items sched)) as [|instr rest] eqn:Hpc;
    [|done].
  destruct (PoolFacts.inv_returned body _ _ _ Hinv Hpc) as [_ Hcalls].
  apply Permutation_length in Hcalls.
  pose proof (PoolMore.sum_lost_le
                (Pool.workers (Pool.final body n items sched))) as Hle.
  assert (length (Pool.workers (Pool.final body n items sched)) = n) as Hws.
  { destruct Hinv as [k todo queued Hpc' _ _ _ _ _|k i _ _ Hlen _ _ _ _ _];
      [|done].
    rewrite Hpc in Hpc'. by destruct k, todo. }
  lia.
Qed.

Lemma pool_runs_out_of_workers_witness :
  Pool.run (probe_turn default_scout dead_network surrogate_domain) 1
    (address surrogate_domain <$> [lit "john"; lit "j"]) [1; 0; 1; 1; 0]
  = Blocks.
Proof.
  apply (pool_runs_out_of_workers
           (probe_turn default_scout dead_network surrogate_domain) 1
           (address surrogate_domain <$> [lit "john"; lit "j"]) [1; 0; 1; 1; 0]).
  - intros a Ha. exists UnicodeEncodeError.
    apply elem_of_cons in Ha as [->|Ha]; [vm_compute; reflexivity|].
    apply elem_of_cons in Ha as [->|Ha]; [vm_compute; reflexivity|].
    by apply elem_of_nil in Ha.
  - simpl. lia.
Defined.

(** ** More on the prefixes *)

(** X21.  [generate_prefixes] returns one address per prefix, pairwise
    distinct exactly when the prefixes are; the 62 common prefixes are
    pairwise distinct, so that without custom prefixes no address is
    generated twice, whatever the domain. *)
Theorem generate_prefixes_distinct (domain : str) (custom_prefixes : option (list str)) :
  length (generate_prefixes domain custom_prefixes)
  = length (default common_prefixes custom_prefixes)
  ∧ (NoDup (generate_prefixes domain custom_prefixes)
     ↔ NoDup (default common_prefixes custom_prefixes))
  ∧ length (generate_prefixes domain None) = 62
  ∧ NoDup (generate_prefixes domain None).
Proof.
  unfold generate_prefixes. split; [by rewrite length_fmap|].
  split; [apply (NoDup_fmap (address domain))|].
  split; [by rewrite length_fmap|].
  apply (NoDup_fmap_2 (address domain)), common_prefixes_NoDup.
Qed.
